(** * Klaviyo flow builder: flow graph model, traversal, validation,
      setting resolution, REST compilation and retry layer.

    A shallow embedding of the TypeScript sources
    ([types.ts], [utils/validator.ts], [utils/retry.ts],
    [api/flow-creator.ts], [browser/flow-builder.ts]) together with the
    properties the specification states about them. *)

From Stdlib Require Import ZArith Lia Ascii String.
From stdpp Require Import base option list strings gmap sets sorting pretty.

Set Warnings "-register-all,-clear-no-such-hyp".

Local Open Scope string_scope.
Local Open Scope Z_scope.
Local Open Scope list_scope.

(** ** JavaScript values used by the sources *)

Module JS.

(** [!!s] for a string: only the empty string is falsy. *)
Definition truthy_string (s : string) : bool :=
  match s with
  | EmptyString => false
  | String _ _ => true
  end.

(** [!!x] for [x : string | undefined | null]. *)
Definition truthy (x : option string) : bool :=
  match x with
  | None => false
  | Some s => truthy_string s
  end.

(** [x || d] for [x : string | undefined] and a string default. *)
Definition or_default (x : option string) (d : string) : string :=
  match x with
  | Some s => if truthy_string s then s else d
  | None => d
  end.

(** [String.prototype.startsWith]. *)
Fixpoint startsWith (s p : string) : bool :=
  match p, s with
  | EmptyString, _ => true
  | String c p', String c' s' => bool_decide (c = c') && startsWith s' p'
  | String _ _, EmptyString => false
  end.

(** [String.prototype.includes]: [p] occurs in [s] at some offset. *)
Fixpoint includes (s p : string) : bool :=
  startsWith s p ||
  match s with
  | EmptyString => false
  | String _ s' => includes s' p
  end.

(** JSON-like values: the [Record<string, unknown>] payloads that the
    REST compiler emits and the opaque filter conditions it passes on.
    Numbers are integral. *)
Inductive json : Type :=
| JNull
| JBool (b : bool)
| JNum (n : Z)
| JStr (s : string)
| JArr (l : list json)
| JObj (fields : list (string * json)).

(** Property read [o.k]; [None] stands for [undefined]. *)
Fixpoint assoc (k : string) (fields : list (string * json)) : option json :=
  match fields with
  | [] => None
  | (k', v) :: rest => if bool_decide (k = k') then Some v else assoc k rest
  end.

Definition get (k : string) (o : json) : option json :=
  match o with
  | JObj fields => assoc k fields
  | _ => None
  end.

(** [!!v] for a JSON value ([undefined] is [None]). *)
Definition truthy_json (v : option json) : bool :=
  match v with
  | None | Some JNull => false
  | Some (JBool b) => b
  | Some (JNum n) => negb (n =? 0)
  | Some (JStr s) => truthy_string s
  | Some (JArr _) | Some (JObj _) => true
  end.

(** An [Error] object, as far as the sources look at it. *)
Record Error := {
  err_name : string;
  message : string;
}.

(** [new Error(msg)]. *)
Definition new_Error (msg : string) : Error :=
  {| err_name := "Error"; message := msg |}.

End JS.

(** ** Flow definition types ([types.ts]) *)

Module Types.

Inductive DelayUnit := minutes | hours | days | weeks.

Inductive Weekday :=
| monday | tuesday | wednesday | thursday | friday | saturday | sunday.

Inductive ConditionType :=
| has_opened_email
| has_clicked_email
| has_received_email
| has_been_in_flow
| profile_property
| profile_marketing_consent
| metric_property
| custom.

(** [mode], [value], [unit]; mode and unit are kept as the strings the validator compares. *)
Record ReentryConfig := {
  re_mode : string;
  re_value : option Z;
  re_unit : option string;
}.

Record FlowSettings := {
  fs_smart_sending : option bool;
  fs_utm_tracking : option bool;
  reentry : option ReentryConfig;
}.

(** A [FilterCondition] is an open record; it is carried as JSON. *)
Record ConditionGroup := { conditions : list JS.json }.
Record TriggerFilter := { condition_groups : list ConditionGroup }.

Record MetricTrigger := {
  metric_name : string;
  metric_id : option string;
  trigger_filter : option TriggerFilter;
}.

Record ListTrigger := {
  list_name : string;
  list_id : option string;
}.

Record DateTrigger := {
  property_name : string;
  offset_days : option Z;
}.

Inductive FlowTrigger :=
| TriggerMetric (t : MetricTrigger)
| TriggerList (t : ListTrigger)
| TriggerDate (t : DateTrigger).

Record TimeDelayAction := {
  td_id : string;
  delay_value : Z;
  delay_unit : DelayUnit;
  td_next : option string;
}.

(** [content] (the sliced e-mail body) is an opaque document here: the
    functions below never read inside it. *)
Record SendEmailAction := {
  se_id : string;
  se_name : string;
  subject_line : option string;
  preview_text : option string;
  se_smart_sending : option bool;
  se_utm_tracking : option bool;
  content : option JS.json;
  se_next : option string;
}.

Record SendSmsAction := {
  sms_id : string;
  sms_name : string;
  body : option string;
  sms_smart_sending : option bool;
  sms_utm_tracking : option bool;
  sms_next : option string;
}.

Record ConditionalSplitAction := {
  cs_id : string;
  condition_type : ConditionType;
  condition_label : string;
  condition_config : option JS.json;
  next_if_true : option string;
  next_if_false : option string;
}.

Record ABSplitAction := {
  ab_id : string;
  variant_a_label : option string;
  variant_b_label : option string;
  split_percentage : option Z;
  next_variant_a : option string;
  next_variant_b : option string;
}.

(** The tag of each constructor is the action's [type] field. *)
Inductive FlowAction :=
| TimeDelay (a : TimeDelayAction)
| SendEmail (a : SendEmailAction)
| SendSms (a : SendSmsAction)
| ConditionalSplit (a : ConditionalSplitAction)
| ABSplit (a : ABSplitAction).

Definition action_id (a : FlowAction) : string :=
  match a with
  | TimeDelay a => td_id a
  | SendEmail a => se_id a
  | SendSms a => sms_id a
  | ConditionalSplit a => cs_id a
  | ABSplit a => ab_id a
  end.

Definition action_type (a : FlowAction) : string :=
  match a with
  | TimeDelay _ => "time-delay"
  | SendEmail _ => "send-email"
  | SendSms _ => "send-sms"
  | ConditionalSplit _ => "conditional-split"
  | ABSplit _ => "ab-split"
  end.

Record FlowDefinition := {
  name : string;
  trigger : FlowTrigger;
  actions : list FlowAction;
  entry_action_id : string;
  profile_filter : option TriggerFilter;
  settings : option FlowSettings;
  tags : option (list string);
}.

(** The link fields of an action, in the order the sources read them:
    [next]; [next_if_true], [next_if_false]; [next_variant_a],
    [next_variant_b]. *)
Definition link_fields (a : FlowAction) : list (option string) :=
  match a with
  | TimeDelay a => [td_next a]
  | SendEmail a => [se_next a]
  | SendSms a => [sms_next a]
  | ConditionalSplit a => [next_if_true a; next_if_false a]
  | ABSplit a => [next_variant_a a; next_variant_b a]
  end.

(** A link field holds a link when it is truthy: the validator guards
    with [l && ...], the traversal with [!id], and the REST compiler
    emits [l || null]. *)
Definition present (l : option string) : option string :=
  match l with
  | Some t => if JS.truthy_string t then Some t else None
  | None => None
  end.

Definition outgoing_links (a : FlowAction) : list string :=
  omap present (link_fields a).

(** The ids that can be reached from the entry by following links. *)
Inductive reachable (d : FlowDefinition) : string → Prop :=
| reach_entry :
    JS.truthy_string (entry_action_id d) = true →
    reachable d (entry_action_id d)
| reach_link i a t :
    reachable d i → a ∈ actions d → action_id a = i → t ∈ outgoing_links a →
    reachable d t.

End Types.

(** ** Browser builder: build order ([browser/flow-builder.ts]) *)

Module BrowserFlowBuilder.
Import Types.

(** The two mutable locals of [getActionSequence] that the closure
    [traverse] updates: the array [ordered] and the set [visited]. *)
Record walk := {
  ordered : list FlowAction;
  visited : gset string;
}.

(** [definition.actions.forEach((a) => actionMap.set(a.id, a))]:
    a later action replaces an earlier one with the same id. *)
Definition build_actionMap (acts : list FlowAction) : gmap string FlowAction :=
  foldl (λ m a, <[action_id a := a]> m) ∅ acts.

(** The recursive closure [traverse].  The recursion is on the call
    depth: [fuel] bounds the number of nested calls and [None] means
    that the bound was hit. *)
Fixpoint traverse (fuel : nat) (actionMap : gmap string FlowAction)
    (id : option string) (w : walk) : option walk :=
  match fuel with
  | O => None
  | S fuel' =>
      match id with
      | None => Some w
      | Some i =>
          if negb (JS.truthy_string i) || bool_decide (i ∈ visited w)
          then Some w
          else
            let w1 := {| ordered := ordered w; visited := {[i]} ∪ visited w |} in
            match actionMap !! i with
            | None => Some w1
            | Some action =>
                let w2 := {| ordered := ordered w1 ++ [action];
                             visited := visited w1 |} in
                match action with
                | TimeDelay a => traverse fuel' actionMap (td_next a) w2
                | SendEmail a => traverse fuel' actionMap (se_next a) w2
                | SendSms a => traverse fuel' actionMap (sms_next a) w2
                | ConditionalSplit cs =>
                    w3 ← traverse fuel' actionMap (next_if_true cs) w2;
                    traverse fuel' actionMap (next_if_false cs) w3
                | ABSplit ab =>
                    w3 ← traverse fuel' actionMap (next_variant_a ab) w2;
                    traverse fuel' actionMap (next_variant_b ab) w3
                end
            end
      end
  end.

(** The trailing [forEach]: unvisited actions, in definition order. *)
Definition unvisited (acts : list FlowAction) (seen : gset string) : list FlowAction :=
  filter (λ a, action_id a ∉ seen) acts.

(** [getActionSequence].  Every nested call of [traverse] beyond the
    first marks a fresh key of [actionMap], so one more than the number
    of actions bounds the depth (lemma [traverse_enough_fuel]). *)
Definition getActionSequence (definition : FlowDefinition) : option (list FlowAction) :=
  let actionMap := build_actionMap (actions definition) in
  w ← traverse (S (length (actions definition))) actionMap
        (Some (entry_action_id definition))
        {| ordered := []; visited := ∅ |};
  Some (ordered w ++ unvisited (actions definition) (visited w)).

(** *** Adding one action to the canvas ([addAction])

    [addAction] awaits four private methods that drive the page.  What
    such a call does on the page is the driver's business, and it may end
    in a rejection: the builder only sees whether the awaited call resolves
    or rejects. *)
Inductive call :=
| zoomOutCanvas
| dragActionToCanvas (sidebarLabel : string)
| configureTimeDelay (a : TimeDelayAction)
| dismissConfigPanel.

(** What the builder has done so far: the calls it awaited, the timers
    it slept on, and the screenshots it asked for. *)
Inductive ui_event :=
| Await (c : call)
| Sleep (ms : Z)
| TakeScreenshot (name : string).

(** What a rejected call carries: an [Error], or some other value, of
    which only [String(value)] is used. *)
Inductive rejection :=
| RejectedError (e : JS.Error)
| RejectedValue (as_string : string).

(** [error instanceof Error ? error.message : String(error)]. *)
Definition rejection_message (r : rejection) : string :=
  match r with
  | RejectedError e => JS.message e
  | RejectedValue s => s
  end.

(** The page driver: given all that was done so far and the call that
    is awaited now, [None] when the call resolves and the rejection when
    it does not. *)
Definition driver : Type := list ui_event → call → option rejection.

(** An [async] body: it takes the events so far and ends resolved or
    rejected, with the events it has added. *)
Definition async : Type := list ui_event → (rejection + unit) * list ui_event.

Definition resolve : async := λ w, (inr tt, w).

Definition throw (r : rejection) : async := λ w, (inl r, w).

Definition await (drv : driver) (c : call) : async :=
  λ w, match drv w c with
       | None => (inr tt, w ++ [Await c])
       | Some r => (inl r, w ++ [Await c])
       end.

(** [await sleep(ms)]: a timer, which always resolves. *)
Definition sleep (ms : Z) : async := λ w, (inr tt, w ++ [Sleep ms]).

Definition then_ (c k : async) : async :=
  λ w, match c w with
       | (inr _, w') => k w'
       | (inl r, w') => (inl r, w')
       end.

Notation "c ;;; k" := (then_ c k) (at level 100, k at level 200, right associativity).

Definition sidebarLabel (action : FlowAction) : string :=
  match action with
  | TimeDelay _ => "Time delay"
  | SendEmail _ => "Email"
  | SendSms _ => "Text message"
  | ConditionalSplit _ => "Conditional split"
  | _ => "Email"
  end.

(** [page_ready] tells whether [this.page] is set. *)
Definition addAction (drv : driver) (page_ready : bool) (action : FlowAction) : async :=
  if negb page_ready then throw (RejectedError (JS.new_Error "Page not initialized"))
  else
    await drv zoomOutCanvas ;;;
    await drv (dragActionToCanvas (sidebarLabel action)) ;;;
    sleep 2000 ;;;
    match action with
    | TimeDelay a => await drv (configureTimeDelay a)
    | _ => resolve
    end ;;;
    await drv dismissConfigPanel ;;;
    sleep 1000.

(** Step 4 of [buildFlow]: the actions in build order, each added under
    its own [try]; a rejection becomes a warning, a screenshot is asked
    for ([takeScreenshot] catches its own errors), and the loop goes on. *)
Record build_progress := {
  actionsCreated : nat;
  bp_warnings : list string;
  performed : list ui_event;
}.

Definition add_one (drv : driver) (page_ready : bool) (p : build_progress)
    (action : FlowAction) : build_progress :=
  match addAction drv page_ready action (performed p) with
  | (inr _, w) =>
      {| actionsCreated := S (actionsCreated p);
         bp_warnings := bp_warnings p;
         performed := w |}
  | (inl r, w) =>
      {| actionsCreated := actionsCreated p;
         bp_warnings := bp_warnings p ++
           ["Action " +:+ action_id action +:+ " (" +:+ action_type action +:+ "): "
            +:+ rejection_message r];
         performed := w ++ [TakeScreenshot ("fail-" +:+ action_id action)] |}
  end.

Definition buildFlow_actions (drv : driver) (page_ready : bool)
    (definition : FlowDefinition) : option build_progress :=
  acts ← getActionSequence definition;
  Some (foldl (add_one drv page_ready)
          {| actionsCreated := 0; bp_warnings := []; performed := [] |} acts).

End BrowserFlowBuilder.

(** ** Flow definition validator ([utils/validator.ts]) *)

Module Validator.
Import Types.

Definition dq : string := String "034"%char EmptyString.

(** Strings are sequences of UTF-8 bytes, as the flow files are read.
    The white space of [String.prototype.trim] is the WhiteSpace and
    LineTerminator of ECMAScript; below, each of these characters by its
    UTF-8 bytes.  One byte: TAB, LF, VT, FF, CR and SP. *)
Definition white_space1 (a : ascii) : bool :=
  let a := N_of_ascii a in
  ((9 <=? a) && (a <=? 13) || (a =? 32))%N.

(** Two bytes: U+00A0, as [C2 A0]. *)
Definition white_space2 (a b : ascii) : bool :=
  ((N_of_ascii a =? 194) && (N_of_ascii b =? 160))%N.

(** Three bytes: U+1680 as [E1 9A 80]; U+2000 to U+200A, U+2028, U+2029
    and U+202F as [E2 80 80] to [E2 80 8A], [E2 80 A8], [E2 80 A9] and
    [E2 80 AF]; U+205F as [E2 81 9F]; U+3000 as [E3 80 80]; U+FEFF as
    [EF BB BF]. *)
Definition white_space3 (a b c : ascii) : bool :=
  let a := N_of_ascii a in
  let b := N_of_ascii b in
  let c := N_of_ascii c in
  ((a =? 225) && (b =? 154) && (c =? 128)
   || (a =? 226) && (b =? 128)
      && ((128 <=? c) && (c <=? 138) || (c =? 168) || (c =? 169) || (c =? 175))
   || (a =? 226) && (b =? 129) && (c =? 159)
   || (a =? 227) && (b =? 128) && (c =? 128)
   || (a =? 239) && (b =? 187) && (c =? 191))%N.

(** The string without the white space it starts with.  With
    [backwards], the string is read from its end, so the bytes of a
    character come last byte first. *)
Fixpoint strip_white_space (backwards : bool) (s : string) : string :=
  match s with
  | EmptyString => EmptyString
  | String a s1 =>
      if white_space1 a then strip_white_space backwards s1
      else
        match s1 with
        | EmptyString => s
        | String b s2 =>
            if (if backwards then white_space2 b a else white_space2 a b)
            then strip_white_space backwards s2
            else
              match s2 with
              | EmptyString => s
              | String c s3 =>
                  if (if backwards then white_space3 c b a else white_space3 a b c)
                  then strip_white_space backwards s3
                  else s
              end
        end
  end.

Definition trimStart (s : string) : string := strip_white_space false s.

Definition trimEnd (s : string) : string :=
  String.rev (strip_white_space true (String.rev s)).

Definition trim (s : string) : string := trimEnd (trimStart s).

(** [parts.join(sep)]. *)
Fixpoint join (sep : string) (parts : list string) : string :=
  match parts with
  | [] => EmptyString
  | [x] => x
  | x :: rest => x +:+ sep +:+ join sep rest
  end.

(** What the validator can touch: the object it was handed and its two
    local arrays, which the helpers receive by reference and push to. *)
Record heap := {
  definition : FlowDefinition;
  errors : list string;
  warnings : list string;
}.

Definition M (A : Type) : Type := heap → A * heap.

Definition ret {A} (x : A) : M A := λ h, (x, h).

Definition bind {A B} (c : M A) (k : A → M B) : M B :=
  λ h, let '(x, h') := c h in k x h'.

Notation "'do' x <- c ; k" := (bind c (λ x, k))
  (at level 10, x name, c at level 100, k at level 200).
Notation "c ;; k" := (bind c (λ _, k))
  (at level 100, k at level 200, right associativity).

Definition read : M FlowDefinition := λ h, (definition h, h).

Definition push_error (msg : string) : M unit :=
  λ h, (tt, {| definition := definition h;
               errors := errors h ++ [msg];
               warnings := warnings h |}).

Definition push_warning (msg : string) : M unit :=
  λ h, (tt, {| definition := definition h;
               errors := errors h;
               warnings := warnings h ++ [msg] |}).

Definition when (b : bool) (c : M unit) : M unit :=
  if b then c else ret tt.

Fixpoint for_of {A} (l : list A) (body : A → M unit) : M unit :=
  match l with
  | [] => ret tt
  | x :: rest => body x ;; for_of rest body
  end.

Definition validateTrigger : M unit :=
  do d <- read;
  match trigger d with
  | TriggerMetric t =>
      when (negb (JS.truthy_string (metric_name t)) && negb (JS.truthy (metric_id t)))
        (push_error "Metric trigger requires either metric_name or metric_id.")
  | TriggerList t =>
      when (negb (JS.truthy_string (list_name t)) && negb (JS.truthy (list_id t)))
        (push_error "List trigger requires either list_name or list_id.")
  | TriggerDate t =>
      when (negb (JS.truthy_string (property_name t)))
        (push_error "Date trigger requires property_name.")
  end.

(** One link check: [if (l && !validIds.has(l)) errors.push(...)]. *)
Definition check_link (id field : string) (l : option string)
    (validIds : gset string) : M unit :=
  match l with
  | Some t =>
      when (JS.truthy_string t && negb (bool_decide (t ∈ validIds)))
        (push_error ("Action " +:+ dq +:+ id +:+ dq +:+ " has " +:+ field +:+ "="
                     +:+ dq +:+ t +:+ dq +:+ " which doesn't exist."))
  | None => ret tt
  end.

Definition validateActionLinks (action : FlowAction) (validIds : gset string) : M unit :=
  match action with
  | TimeDelay a => check_link (td_id a) "next" (td_next a) validIds
  | SendEmail a => check_link (se_id a) "next" (se_next a) validIds
  | SendSms a => check_link (sms_id a) "next" (sms_next a) validIds
  | ConditionalSplit cs =>
      check_link (cs_id cs) "next_if_true" (next_if_true cs) validIds ;;
      check_link (cs_id cs) "next_if_false" (next_if_false cs) validIds
  | ABSplit ab =>
      check_link (ab_id ab) "next_variant_a" (next_variant_a ab) validIds ;;
      check_link (ab_id ab) "next_variant_b" (next_variant_b ab) validIds
  end.

Definition validateReentry (r : ReentryConfig) : M unit :=
  let validModes := ["once"; "multiple"; "time-based"] in
  if negb (bool_decide (re_mode r ∈ validModes)) then
    push_error ("settings.reentry.mode must be one of: " +:+ join ", " validModes
                +:+ ". Got: " +:+ dq +:+ re_mode r +:+ dq +:+ ".")
  else
    when (bool_decide (re_mode r = "time-based"))
      (when (match re_value r with
             | None => true
             | Some v => (v =? 0) || (v <=? 0)
             end)
         (push_error ("settings.reentry with mode " +:+ dq +:+ "time-based" +:+ dq
                      +:+ " requires a positive " +:+ dq +:+ "value" +:+ dq +:+ ".")) ;;
       let validUnits := ["hours"; "days"; "weeks"] in
       when (match re_unit r with
             | None => true
             | Some u => negb (JS.truthy_string u) || negb (bool_decide (u ∈ validUnits))
             end)
         (push_error ("settings.reentry.unit must be one of: " +:+ join ", " validUnits
                      +:+ ". Got: " +:+ dq +:+ default "undefined" (re_unit r) +:+ dq +:+ "."))).

(** *** The id tally [idCounts]

    [idCounts] is a plain object used as a map.  Two traits of plain
    objects are visible in the messages and are kept: [Object.entries]
    lists keys that are canonical array indices first, in increasing
    numeric order, and the other keys in insertion order; and for a key
    that [Object.prototype] already has, [idCounts[k] || 0] is the
    inherited member, the tally becomes a string, and [count > 1] is
    false, so that such an id is never reported. *)

Definition prototype_keys : list string :=
  ["constructor"; "toString"; "toLocaleString"; "valueOf"; "hasOwnProperty";
   "isPrototypeOf"; "propertyIsEnumerable"; "__proto__"; "__defineGetter__";
   "__defineSetter__"; "__lookupGetter__"; "__lookupSetter__"].

Definition digit_value (c : ascii) : option N :=
  let n := N_of_ascii c in
  if ((48 <=? n) && (n <=? 57))%N then Some (n - 48)%N else None.

Fixpoint digits_value (acc : N) (s : string) : option N :=
  match s with
  | EmptyString => Some acc
  | String c s' =>
      match digit_value c with
      | Some v => digits_value (10 * acc + v)%N s'
      | None => None
      end
  end.

(** The numeric value of a canonical array index: decimal digits with no
    leading zero, below [2^32 - 1]. *)
Definition array_index (s : string) : option N :=
  match s with
  | EmptyString => None
  | String c s' =>
      if bool_decide (c = "0"%char) && negb (bool_decide (s' = EmptyString)) then None
      else
        match digits_value 0 s with
        | Some n => if (n <? 4294967295)%N then Some n else None
        | None => None
        end
  end.

(** [idCounts[id] = (idCounts[id] || 0) + 1] on own keys, which stay
    in insertion order. *)
Fixpoint bump (id : string) (counts : list (string * nat)) : list (string * nat) :=
  match counts with
  | [] => [(id, 1%nat)]
  | (k, c) :: rest =>
      if bool_decide (k = id) then (k, S c) :: rest else (k, c) :: bump id rest
  end.

Definition tally (ids : list string) : list (string * nat) :=
  foldl (λ counts id, bump id counts) [] ids.

Definition index_keyed (e : string * nat) : option (N * (string * nat)) :=
  match array_index e.1 with
  | Some n => Some (n, e)
  | None => None
  end.

Definition index_le (x y : N * (string * nat)) : Prop := (x.1 ≤ y.1)%N.

#[global] Instance index_le_dec : RelDecision index_le.
Proof. intros x y. unfold index_le. apply _. Defined.

(** [Object.entries(idCounts)] restricted to the entries that hold a
    number. *)
Definition entries (counts : list (string * nat)) : list (string * nat) :=
  let own := filter (λ e, e.1 ∉ prototype_keys) counts in
  (snd <$> merge_sort index_le (omap index_keyed own))
  ++ filter (λ e, array_index e.1 = None) own.

Definition validateFlowDefinition_body : M unit :=
  do d <- read;
  when (negb (JS.truthy_string (name d)) || bool_decide (trim (name d) = EmptyString))
    (push_error "Flow name is required.") ;;
  (* [definition.trigger] is an object, hence truthy *)
  validateTrigger ;;
  when (bool_decide (length (actions d) = 0%nat))
    (push_error "Flow must have at least one action.") ;;
  when (negb (JS.truthy_string (entry_action_id d)))
    (push_error "entry_action_id is required — it must reference the first action.") ;;
  when (bool_decide (0 < length (actions d))%nat)
    (let actionIds : gset string := list_to_set (action_id <$> actions d) in
     when (JS.truthy_string (entry_action_id d)
           && negb (bool_decide (entry_action_id d ∈ actionIds)))
       (push_error ("entry_action_id " +:+ dq +:+ entry_action_id d +:+ dq
                    +:+ " does not match any action ID.")) ;;
     for_of (entries (tally (action_id <$> actions d)))
       (λ e, when (bool_decide (1 < e.2)%nat)
               (push_error ("Duplicate action ID: " +:+ dq +:+ e.1 +:+ dq
                            +:+ " appears " +:+ pretty e.2 +:+ " times."))) ;;
     for_of (actions d) (λ action, validateActionLinks action actionIds)) ;;
  match settings d with
  | Some st =>
      match reentry st with
      | Some r => validateReentry r
      | None => ret tt
      end
  | None => ret tt
  end ;;
  (* [condition_groups] is an array by its type, so only its length is
     in question *)
  match profile_filter d with
  | Some pf =>
      when (bool_decide (length (condition_groups pf) = 0%nat))
        (push_warning "profile_filter has empty condition_groups — it will have no effect.")
  | None => ret tt
  end ;;
  match trigger d with
  | TriggerMetric t =>
      match trigger_filter t with
      | Some tf =>
          when (bool_decide (length (condition_groups tf) = 0%nat))
            (push_warning "trigger_filter has empty condition_groups — it will have no effect.")
      | None => ret tt
      end
  | _ => ret tt
  end.

Record ValidationResult := {
  valid : bool;
  vr_errors : list string;
  vr_warnings : list string;
}.

(** Running the validator on a definition: the result it returns and the
    definition object as it is afterwards. *)
Definition validateFlowDefinition_run (d : FlowDefinition)
    : ValidationResult * FlowDefinition :=
  let h := (validateFlowDefinition_body
              {| definition := d; errors := []; warnings := [] |}).2 in
  ({| valid := bool_decide (length (errors h) = 0%nat);
      vr_errors := errors h;
      vr_warnings := warnings h |},
   definition h).

Definition validateFlowDefinition (d : FlowDefinition) : ValidationResult :=
  (validateFlowDefinition_run d).1.

End Validator.

(** ** Retry with exponential backoff ([utils/retry.ts]) *)

Module Retry.

(** [maxAttempts] is a count of attempts, a non-negative integer; the
    delays are milliseconds. *)
Record RetryOptions := {
  maxAttempts : nat;
  baseDelay : Z;
  backoffFactor : Z;
  maxDelay : Z;
  retryableErrors : option (list string);
}.

Record PartialRetryOptions := {
  p_maxAttempts : option nat;
  p_baseDelay : option Z;
  p_backoffFactor : option Z;
  p_maxDelay : option Z;
  p_retryableErrors : option (list string);
}.

Definition no_options : PartialRetryOptions :=
  {| p_maxAttempts := None; p_baseDelay := None; p_backoffFactor := None;
     p_maxDelay := None; p_retryableErrors := None |}.

Definition DEFAULT_RETRY_OPTIONS : RetryOptions :=
  {| maxAttempts := 3; baseDelay := 1000; backoffFactor := 2; maxDelay := 15000;
     retryableErrors := None |}.

(** [{ ...DEFAULT_RETRY_OPTIONS, ...options }]. *)
Definition merge_options (options : PartialRetryOptions) : RetryOptions :=
  {| maxAttempts := default (maxAttempts DEFAULT_RETRY_OPTIONS) (p_maxAttempts options);
     baseDelay := default (baseDelay DEFAULT_RETRY_OPTIONS) (p_baseDelay options);
     backoffFactor := default (backoffFactor DEFAULT_RETRY_OPTIONS) (p_backoffFactor options);
     maxDelay := default (maxDelay DEFAULT_RETRY_OPTIONS) (p_maxDelay options);
     retryableErrors := p_retryableErrors options |}.

(** What a rejected promise carries: an [Error], or some other value,
    of which only [String(value)] is used. *)
Inductive thrown :=
| ThrownError (e : JS.Error)
| ThrownValue (as_string : string).

Inductive outcome (T : Type) :=
| Resolved (v : T)
| Rejected (t : thrown).
Arguments Resolved {T} v.
Arguments Rejected {T} t.

(** The operation is an effectful thunk: what it does may differ from one
    invocation to the next, so it is given by its outcome at the k-th
    invocation (counted from 0). *)
Definition operation (T : Type) : Type := nat → outcome T.

Inductive level := info | warn | error.

Inductive event :=
| Invoke (k : nat)
| Sleep (ms : Z)
| Log (l : level) (msg : string).

Record world := {
  invocations : nat;
  trace : list event;
}.

Definition emit (e : event) (w : world) : world :=
  {| invocations := invocations w; trace := trace w ++ [e] |}.

Definition invoke {T} (op : operation T) (w : world) : outcome T * world :=
  (op (invocations w),
   {| invocations := S (invocations w);
      trace := trace w ++ [Invoke (invocations w)] |}).

(** How [withRetry] completes; [Threw None] is [throw null]. *)
Inductive completion (T : Type) :=
| Returned (v : T)
| Threw (e : option JS.Error).
Arguments Returned {T} v.
Arguments Threw {T} e.

(** [error instanceof Error ? error : new Error(String(error))]. *)
Definition to_Error (t : thrown) : JS.Error :=
  match t with
  | ThrownError e => e
  | ThrownValue s => JS.new_Error s
  end.

(** The test that ends the retries early: patterns are given, and none
    occurs in the error's message or name. *)
Definition non_retryable (opts : RetryOptions) (e : JS.Error) : bool :=
  match retryableErrors opts with
  | Some pats =>
      bool_decide (0 < length pats)%nat &&
      negb (existsb (λ p, JS.includes (JS.message e) p || JS.includes (JS.err_name e) p) pats)
  | None => false
  end.

Definition backoff_delay (opts : RetryOptions) (attempt : nat) : Z :=
  Z.min (baseDelay opts * backoffFactor opts ^ Z.of_nat (attempt - 1)) (maxDelay opts).

(** The [for] loop from [attempt] on; [remaining] is the number of
    values of [attempt] still below or at [maxAttempts]. *)
Fixpoint attempts_from {T} (remaining : nat) (op : operation T) (label : string)
    (opts : RetryOptions) (attempt : nat) (lastError : option JS.Error) (w : world)
    : completion T * world :=
  match remaining with
  | O => (Threw lastError, w)
  | S remaining' =>
      let '(r, w) := invoke op w in
      match r with
      | Resolved v =>
          (Returned v,
           if bool_decide (1 < attempt)%nat
           then emit (Log info (label +:+ " succeeded on attempt " +:+ pretty attempt)) w
           else w)
      | Rejected t =>
          let e := to_Error t in
          if non_retryable opts e then
            (Threw (Some e),
             emit (Log error (label +:+ " failed with non-retryable error: "
                              +:+ JS.message e)) w)
          else if bool_decide (attempt < maxAttempts opts)%nat then
            let delay := backoff_delay opts attempt in
            let w := emit (Log warn
                       (label +:+ " failed (attempt " +:+ pretty attempt +:+ "/"
                        +:+ pretty (maxAttempts opts) +:+ "): " +:+ JS.message e
                        +:+ ". Retrying in " +:+ pretty delay +:+ "ms...")) w in
            let w := emit (Sleep delay) w in
            attempts_from remaining' op label opts (S attempt) (Some e) w
          else
            let w := emit (Log error
                       (label +:+ " failed after " +:+ pretty (maxAttempts opts)
                        +:+ " attempts: " +:+ JS.message e)) w in
            attempts_from remaining' op label opts (S attempt) (Some e) w
      end
  end.

Definition withRetry {T} (op : operation T) (label : string)
    (options : PartialRetryOptions) : completion T * world :=
  let opts := merge_options options in
  attempts_from (maxAttempts opts) op label opts 1 None
    {| invocations := 0; trace := [] |}.

(** The delays slept, in order. *)
Definition sleeps (w : world) : list Z :=
  omap (λ e, match e with Sleep ms => Some ms | _ => None end) (trace w).

(** The trace without its log lines. *)
Definition actions_of (w : world) : list event :=
  omap (λ e, match e with Log _ _ => None | _ => Some e end) (trace w).

End Retry.

(** ** REST compiler ([api/flow-creator.ts]) *)

Module APIFlowCreator.
Import Types JS.

(** A property of [links]: absent, [null], or an action id. *)
Inductive link :=
| Absent
| Null
| Target (id : string).

(** [l || null]. *)
Definition or_null (l : option string) : link :=
  match l with
  | Some s => if truthy_string s then Target s else Null
  | None => Null
  end.

Record Links := {
  next : link;
  l_next_if_true : link;
  l_next_if_false : link;
}.

Record KlaviyoAPIAction := {
  temporary_id : string;
  type : string;
  links : Links;
  data : json;
}.

Record KlaviyoAPITrigger := {
  t_type : string;
  t_id : string;
  t_trigger_filter : option TriggerFilter;
}.

Record FlowDefinitionPayload := {
  triggers : list KlaviyoAPITrigger;
  p_profile_filter : option TriggerFilter;
  p_actions : list KlaviyoAPIAction;
  p_entry_action_id : string;
}.

Record FlowAttributes := {
  a_name : string;
  a_definition : FlowDefinitionPayload;
}.

Record FlowData := {
  d_type : string;
  attributes : FlowAttributes;
}.

Record KlaviyoCreateFlowPayload := { p_data : FlowData }.

(** The fields that the constructor sets and the transformation reads. *)
Record creator := {
  defaultFromEmail : string;
  defaultFromLabel : string;
}.

(** [constructor(config)], from [config.email]. *)
Definition new_creator (email : string) : creator :=
  {| defaultFromEmail := if truthy_string email then email else "noreply@example.com";
     defaultFromLabel := "Store" |}.

Definition unit_name (u : DelayUnit) : string :=
  match u with
  | minutes => "minutes"
  | hours => "hours"
  | days => "days"
  | weeks => "weeks"
  end.

Definition weekday_name (d : Weekday) : string :=
  match d with
  | monday => "monday"
  | tuesday => "tuesday"
  | wednesday => "wednesday"
  | thursday => "thursday"
  | friday => "friday"
  | saturday => "saturday"
  | sunday => "sunday"
  end.

Definition transformTimeDelay (action : TimeDelayAction) : KlaviyoAPIAction :=
  let isDays := bool_decide (unit_name (delay_unit action) = "days") in
  {| temporary_id := td_id action;
     type := "time-delay";
     links := {| next := or_null (td_next action);
                 l_next_if_true := Absent; l_next_if_false := Absent |};
     data := JObj
       [("unit", JStr (unit_name (delay_unit action)));
        ("value", JNum (delay_value action));
        ("secondary_value", JNum 0);
        ("timezone", JStr "profile");
        ("delay_until_time", JNull);
        ("delay_until_weekdays",
          if isDays
          then JArr (JStr <$> ["monday"; "tuesday"; "wednesday"; "thursday";
                               "friday"; "saturday"; "sunday"])
          else JNull)] |}.

Definition resolveSetting (perAction flowDefault : option bool) (fallback : bool) : bool :=
  match perAction with
  | Some b => b
  | None =>
      match flowDefault with
      | Some b => b
      | None => fallback
      end
  end.

(** [templateIds?.[id]], on ids that are not names of members of
    [Object.prototype]. *)
Definition template_for (templateIds : option (gmap string string)) (id : string)
    : option string :=
  tpl ← templateIds; tpl !! id.

Definition transformSendEmail (self : creator) (action : SendEmailAction)
    (settings : option FlowSettings) (templateIds : option (gmap string string))
    : KlaviyoAPIAction :=
  let smartSending :=
    resolveSetting (se_smart_sending action) (settings ≫= fs_smart_sending) true in
  let utmTracking :=
    resolveSetting (se_utm_tracking action) (settings ≫= fs_utm_tracking) false in
  let message :=
    [("name", JStr (se_name action));
     ("subject_line", JStr (or_default (subject_line action) (se_name action +:+ " Subject")));
     ("preview_text", JStr (or_default (preview_text action) EmptyString));
     ("from_email", JStr (defaultFromEmail self));
     ("from_label", JStr (defaultFromLabel self));
     ("reply_to_email", JStr (defaultFromEmail self));
     ("cc_email", JNull);
     ("bcc_email", JNull);
     ("smart_sending_enabled", JBool smartSending);
     ("transactional", JBool false);
     ("add_tracking_params", JBool utmTracking);
     ("custom_tracking_params", JNull);
     ("additional_filters", JNull)] in
  let message :=
    match template_for templateIds (se_id action) with
    | Some templateId =>
        if truthy_string templateId
        then message ++ [("template_id", JStr templateId)]
        else message
    | None => message
    end in
  {| temporary_id := se_id action;
     type := "send-email";
     links := {| next := or_null (se_next action);
                 l_next_if_true := Absent; l_next_if_false := Absent |};
     data := JObj [("message", JObj message); ("status", JStr "draft")] |}.

Definition transformSendSms (action : SendSmsAction) (settings : option FlowSettings)
    : KlaviyoAPIAction :=
  let smartSending :=
    resolveSetting (sms_smart_sending action) (settings ≫= fs_smart_sending) true in
  let utmTracking :=
    resolveSetting (sms_utm_tracking action) (settings ≫= fs_utm_tracking) false in
  {| temporary_id := sms_id action;
     type := "send-sms";
     links := {| next := or_null (sms_next action);
                 l_next_if_true := Absent; l_next_if_false := Absent |};
     data := JObj
       [("message", JObj
          [("name", JStr (sms_name action));
           ("body", JStr (or_default (body action) EmptyString));
           ("smart_sending_enabled", JBool smartSending);
           ("transactional", JBool false);
           ("add_tracking_params", JBool utmTracking);
           ("respecting_sms_quiet_hours", JBool true);
           ("custom_tracking_params", JNull);
           ("additional_filters", JNull)]);
        ("status", JStr "draft")] |}.

Definition consent_filter (channel : json) : json :=
  JObj [("condition_groups", JArr
    [JObj [("conditions", JArr
      [JObj [("type", JStr "profile-marketing-consent");
             ("consent", JObj
               [("channel", channel);
                ("can_receive_marketing", JBool true);
                ("consent_status", JObj
                  [("subscription", JStr "subscribed");
                   ("filters", JNull)])])]])]])].

(** [x || d] on JSON values. *)
Definition json_or (x : option json) (d : json) : json :=
  match x with
  | Some v => if truthy_json x then v else d
  | None => d
  end.

Definition buildConditionFilter (action : ConditionalSplitAction) : json :=
  match condition_type action with
  | has_opened_email | has_clicked_email | has_received_email =>
      consent_filter (JStr "email")
  | profile_marketing_consent =>
      consent_filter (json_or (condition_config action ≫= get "channel") (JStr "email"))
  | custom =>
      json_or (condition_config action ≫= get "profile_filter")
              (JObj [("condition_groups", JArr [])])
  | _ => consent_filter (JStr "email")
  end.

Definition transformConditionalSplit (action : ConditionalSplitAction) : KlaviyoAPIAction :=
  {| temporary_id := cs_id action;
     type := "conditional-split";
     links := {| next := Absent;
                 l_next_if_true := or_null (next_if_true action);
                 l_next_if_false := or_null (next_if_false action) |};
     data := JObj [("profile_filter", buildConditionFilter action)] |}.

Definition ab_split_message : string :=
  "A/B splits are not supported by the Klaviyo API. " +:+
  "Use browser mode or remove the A/B split from this flow.".

(** [inl e] is [throw e]. *)
Definition transformAction (self : creator) (action : FlowAction)
    (settings : option FlowSettings) (templateIds : option (gmap string string))
    : Error + KlaviyoAPIAction :=
  match action with
  | TimeDelay a => inr (transformTimeDelay a)
  | SendEmail a => inr (transformSendEmail self a settings templateIds)
  | SendSms a => inr (transformSendSms a settings)
  | ConditionalSplit a => inr (transformConditionalSplit a)
  | ABSplit _ => inl (new_Error ab_split_message)
  end.

(** [Array.prototype.map] with a callback that may throw: the first
    throw ends the map. *)
Fixpoint map_throwing {A B} (f : A → Error + B) (l : list A) : Error + list B :=
  match l with
  | [] => inr []
  | x :: rest =>
      match f x with
      | inl e => inl e
      | inr y =>
          match map_throwing f rest with
          | inl e => inl e
          | inr ys => inr (y :: ys)
          end
      end
  end.

Definition transformActions (self : creator) (actions : list FlowAction)
    (settings : option FlowSettings) (templateIds : option (gmap string string))
    : Error + list KlaviyoAPIAction :=
  map_throwing (λ action, transformAction self action settings templateIds) actions.

Definition buildPayload (definition : FlowDefinition) (trigger : KlaviyoAPITrigger)
    (actions : list KlaviyoAPIAction) : KlaviyoCreateFlowPayload :=
  {| p_data :=
      {| d_type := "flow";
         attributes :=
           {| a_name := name definition;
              a_definition :=
                {| triggers := [trigger];
                   p_profile_filter := profile_filter definition;
                   p_actions := actions;
                   p_entry_action_id := entry_action_id definition |} |} |} |}.

(** Steps 3b and 4 of [buildFlow]: transform the actions of the
    definition, then assemble the payload. *)
Definition buildFlow_payload (self : creator) (definition : FlowDefinition)
    (trigger : KlaviyoAPITrigger) (preCreatedTemplates : gmap string string)
    : Error + KlaviyoCreateFlowPayload :=
  match transformActions self (actions definition) (settings definition)
          (Some preCreatedTemplates) with
  | inl e => inl e
  | inr apiActions => inr (buildPayload definition trigger apiActions)
  end.

End APIFlowCreator.

(** ** E-mail HTML helpers ([utils/email-builder.ts]) *)

Module EmailBuilder.
Import JS.

Record ImageSection := {
  src : string;
  alt : option string;
  link : option string;
  img_width : option Z;
}.

Record TextSection := {
  html : string;
  align : option string;
  txt_padding : option Z;
}.

Record ButtonSection := {
  text : string;
  url : string;
  background : option string;
  color : option string;
  border_radius : option Z;
  btn_padding : option Z;
}.

Record SpacerSection := { height : option Z }.

Inductive EmailSection :=
| Image (s : ImageSection)
| Text (s : TextSection)
| Button (s : ButtonSection)
| Spacer (s : SpacerSection).

Record EmailContent := {
  sections : list EmailSection;
  background_color : option string;
  width : option Z;
}.

(** [str.replace(/c/g, r)] for a pattern of one character. *)
Fixpoint replace_all (c : ascii) (r : string) (str : string) : string :=
  match str with
  | EmptyString => EmptyString
  | String x rest =>
      if bool_decide (x = c) then r +:+ replace_all c r rest
      else String x (replace_all c r rest)
  end.

Definition escapeHtml (str : string) : string :=
  replace_all ">"%char "&gt;"
    (replace_all "<"%char "&lt;"
       (replace_all "'"%char "&#39;"
          (replace_all "034"%char "&quot;"
             (replace_all "&"%char "&amp;" str)))).

Definition escapeAttr (str : string) : string :=
  replace_all "034"%char "&quot;" str.

Definition isLocalFile (src : string) : bool :=
  if negb (truthy_string src) || bool_decide (Validator.trim src = EmptyString) then false
  else if startsWith src "http://" || startsWith src "https://" || startsWith src "data:"
  then false
  else true.

(** The two arrays that [extractImageSources] fills. *)
Record ImageSources := {
  local : list string;
  remote : list string;
}.

Definition extractImageSources (content : EmailContent) : ImageSources :=
  foldl (λ acc section,
           match section with
           | Image s =>
               if isLocalFile (src s)
               then {| local := local acc ++ [src s]; remote := remote acc |}
               else {| local := local acc; remote := remote acc ++ [src s] |}
           | _ => acc
           end)
        {| local := []; remote := [] |} (sections content).

End EmailBuilder.

(** ** Configuration check ([config.ts]) *)

Module Config.
Import JS.

Inductive BuildMode := api | browser | hybrid.

#[global] Instance BuildMode_eq_dec : EqDecision BuildMode.
Proof. solve_decision. Defined.

Record AppConfig := {
  mode : BuildMode;
  apiKey : string;
  apiRevision : string;
  email : string;
  password : string;
  headless : bool;
  slowMo : Z;
  screenshotDir : string;
  logLevel : string;
  maxRetries : Z;
  pageTimeout : Z;
}.

Definition validateConfig (config : AppConfig) : list string :=
  let errors : list string := [] in
  let errors :=
    if bool_decide (mode config = api) || bool_decide (mode config = hybrid) then
      if negb (truthy_string (apiKey config))
      then errors ++
           ["KLAVIYO_API_KEY is required for API mode. Set it in .env or pass --api-key."]
      else errors
    else errors in
  let errors :=
    if bool_decide (mode config = browser) || bool_decide (mode config = hybrid) then
      let errors :=
        if negb (truthy_string (email config))
        then errors ++ ["KLAVIYO_EMAIL is required for browser mode. Set it in .env."]
        else errors in
      if negb (truthy_string (password config))
      then errors ++ ["KLAVIYO_PASSWORD is required for browser mode. Set it in .env."]
      else errors
    else errors in
  errors.

End Config.

(** ** Settings overrides of the web UI ([server.ts]) *)

Module Server.
Import Types JS.

Record ActionOverride := {
  ao_smart_sending : option bool;
  ao_utm_tracking : option bool;
}.

Record SettingsOverrides := {
  o_smart_sending : option bool;
  o_utm_tracking : option bool;
  reentry_mode : option string;
  reentry_value : option Z;
  reentry_unit : option string;
  profile_filter_enabled : option bool;
  profile_filter_type : option string;
  trigger_filter_enabled : option bool;
  trigger_filter_field : option string;
  trigger_filter_op : option string;
  trigger_filter_value : option Z;
  action_overrides : option (gmap string ActionOverride);
}.

(** [n || d] for a number. *)
Definition num_or (n : option Z) (d : Z) : Z :=
  match n with
  | Some v => if v =? 0 then d else v
  | None => d
  end.

(** [if (v !== undefined) target = v]. *)
Definition assign {A} (v : option A) (target : option A) : option A :=
  match v with
  | Some x => Some x
  | None => target
  end.

Definition override_flow_settings (overrides : SettingsOverrides)
    (settings : option FlowSettings) : FlowSettings :=
  let st := default {| fs_smart_sending := None; fs_utm_tracking := None; reentry := None |}
              settings in
  {| fs_smart_sending := assign (o_smart_sending overrides) (fs_smart_sending st);
     fs_utm_tracking := assign (o_utm_tracking overrides) (fs_utm_tracking st);
     reentry := reentry st |}.

Definition override_profile_filter (overrides : SettingsOverrides)
    (pf : option TriggerFilter) : option TriggerFilter :=
  match profile_filter_enabled overrides with
  | Some true =>
      let channel :=
        if bool_decide (profile_filter_type overrides = Some "sms-consent")
        then "sms" else "email" in
      Some {| condition_groups :=
        [{| conditions :=
          [JObj [("type", JStr "profile-marketing-consent");
                 ("consent", JObj
                   [("channel", JStr channel);
                    ("can_receive_marketing", JBool true);
                    ("consent_status", JObj
                      [("subscription", JStr "subscribed");
                       ("filters", JNull)])])]] |}] |}
  | Some false => None
  | None => pf
  end.

Definition override_trigger_filter (overrides : SettingsOverrides)
    (trigger : FlowTrigger) : FlowTrigger :=
  match trigger with
  | TriggerMetric metricTrigger =>
      match trigger_filter_enabled overrides with
      | Some true =>
          TriggerMetric
            {| metric_name := metric_name metricTrigger;
               metric_id := metric_id metricTrigger;
               trigger_filter := Some {| condition_groups :=
                 [{| conditions :=
                   [JObj [("type", JStr "metric-property");
                          ("metric_id", JStr (or_default (metric_id metricTrigger) EmptyString));
                          ("field", JStr (or_default (trigger_filter_field overrides) "$value"));
                          ("filter", JObj
                            [("type", JStr "numeric");
                             ("operator",
                               JStr (or_default (trigger_filter_op overrides) "greater-than"));
                             ("value", JNum (num_or (trigger_filter_value overrides) 0))])]] |}]
                 |} |}
      | Some false =>
          TriggerMetric
            {| metric_name := metric_name metricTrigger;
               metric_id := metric_id metricTrigger;
               trigger_filter := None |}
      | None => trigger
      end
  | _ => trigger
  end.

Definition override_reentry (overrides : SettingsOverrides) (st : FlowSettings)
    : FlowSettings :=
  match reentry_mode overrides with
  | Some m =>
      if truthy_string m && negb (bool_decide (m = "none")) then
        {| fs_smart_sending := fs_smart_sending st;
           fs_utm_tracking := fs_utm_tracking st;
           reentry := Some
             (if bool_decide (m = "time-based")
              then {| re_mode := m;
                      re_value := Some (num_or (reentry_value overrides) 30);
                      re_unit := Some (or_default (reentry_unit overrides) "days") |}
              else {| re_mode := m; re_value := None; re_unit := None |}) |}
      else if bool_decide (m = "none") then
        {| fs_smart_sending := fs_smart_sending st;
           fs_utm_tracking := fs_utm_tracking st;
           reentry := None |}
      else st
  | None => st
  end.

(** The body of the loop over [definition.actions]. *)
Definition override_action (table : gmap string ActionOverride) (action : FlowAction)
    : FlowAction :=
  match action with
  | SendEmail a =>
      match table !! se_id a with
      | Some override =>
          SendEmail
            {| se_id := se_id a; se_name := se_name a;
               subject_line := subject_line a; preview_text := preview_text a;
               se_smart_sending := assign (ao_smart_sending override) (se_smart_sending a);
               se_utm_tracking := assign (ao_utm_tracking override) (se_utm_tracking a);
               content := content a; se_next := se_next a |}
      | None => action
      end
  | SendSms a =>
      match table !! sms_id a with
      | Some override =>
          SendSms
            {| sms_id := sms_id a; sms_name := sms_name a; body := body a;
               sms_smart_sending := assign (ao_smart_sending override) (sms_smart_sending a);
               sms_utm_tracking := assign (ao_utm_tracking override) (sms_utm_tracking a);
               sms_next := sms_next a |}
      | None => action
      end
  | _ => action
  end.

(** [applySettingsOverrides] updates the definition in place; the result
    is the definition as it is afterwards. *)
Definition applySettingsOverrides (definition : FlowDefinition)
    (overrides : SettingsOverrides) : FlowDefinition :=
  {| name := name definition;
     trigger := override_trigger_filter overrides (trigger definition);
     actions :=
       match action_overrides overrides with
       | Some table => override_action table <$> actions definition
       | None => actions definition
       end;
     entry_action_id := entry_action_id definition;
     profile_filter := override_profile_filter overrides (profile_filter definition);
     settings :=
       Some (override_reentry overrides
               (override_flow_settings overrides (settings definition)));
     tags := tags definition |}.

End Server.

(** ** Vocabulary for the traversal properties *)

Module Walk.
Import Types BrowserFlowBuilder.

(** An edge of the graph that [actionMap] describes. *)
Definition edge (m : gmap string FlowAction) (i t : string) : Prop :=
  ∃ a, m !! i = Some a ∧ t ∈ outgoing_links a.

(** What a run of the walk from the roots [froms] has done between the
    states [w] and [w']. *)
Record walked (m : gmap string FlowAction) (froms : list string) (w w' : walk)
    : Prop := {
  walked_mono : visited w ⊆ visited w';
  walked_roots : ∀ t, t ∈ froms → t ∈ visited w';
  walked_new : ∃ new,
    ordered w' = ordered w ++ new ∧
    NoDup (action_id <$> new) ∧
    ∀ a, a ∈ new ↔
         m !! action_id a = Some a ∧ action_id a ∈ visited w' ∧ action_id a ∉ visited w;
  walked_closed : ∀ i t,
    i ∈ visited w' → i ∉ visited w → edge m i t → t ∈ visited w';
  walked_sound : ∀ i,
    i ∈ visited w' → i ∉ visited w → ∃ r, r ∈ froms ∧ rtc (edge m) r i;
}.

(** The calls that [traverse] makes on the link fields of one action. *)
Fixpoint traverse_links (fuel : nat) (m : gmap string FlowAction)
    (ls : list (option string)) (w : walk) : option walk :=
  match ls with
  | [] => Some w
  | l :: ls' => w1 ← traverse fuel m l w; traverse_links fuel m ls' w1
  end.

(** The state in which [traverse] calls itself after marking [i] and
    pushing [a]. *)
Definition enter (i : string) (a : FlowAction) (w : walk) : walk :=
  {| ordered := ordered w ++ [a]; visited := {[i]} ∪ visited w |}.

(** The statement of the specification about unreachable actions, for
    an output [out]: it splits into reachable actions followed by
    exactly the unreachable ones, these in definition order. *)
Definition unreachable_last (d : FlowDefinition) (out : list FlowAction) : Prop :=
  ∃ pre post,
    out = pre ++ post ∧
    (∀ y, y ∈ pre → reachable d (action_id y)) ∧
    (∀ x, x ∈ post ↔ x ∈ actions d ∧ ¬ reachable d (action_id x)) ∧
    post `sublist_of` actions d.

(** The statement of the specification about visiting every action
    exactly once. *)
Definition visits_each_once (d : FlowDefinition) (out : list FlowAction) : Prop :=
  length out = length (actions d) ∧
  (action_id <$> out) ≡ₚ (action_id <$> actions d) ∧
  out ≡ₚ actions d.

End Walk.

(** ** Concrete flows used as test inputs *)

Module Examples.
Import Types.

Definition delay (id : string) (next : option string) : FlowAction :=
  TimeDelay {| td_id := id; delay_value := 1; delay_unit := hours; td_next := next |}.

Definition flow_of (acts : list FlowAction) (entry : string) : FlowDefinition :=
  {| name := "Welcome";
     trigger := TriggerDate {| property_name := "birthday"; offset_days := None |};
     actions := acts;
     entry_action_id := entry;
     profile_filter := None;
     settings := None;
     tags := None |}.

(** Entry [A], [A.next = B], [B.next = A]. *)
Definition cycle_flow : FlowDefinition :=
  flow_of [delay "A" (Some "B"); delay "B" (Some "A")] "A".

(** Two actions that share the id [A]. *)
Definition twin_flow : FlowDefinition :=
  flow_of [delay "A" None; delay "A" None] "A".

(** Two actions share the id [a]; the first links to [b]; nothing
    links to [c]. *)
Definition twin_link_flow : FlowDefinition :=
  flow_of [delay "a" (Some "b"); delay "a" None; delay "c" None; delay "b" None] "a".

Definition ab_split_1 : ABSplitAction :=
  {| ab_id := "split-1"; variant_a_label := Some "A"; variant_b_label := Some "B";
     split_percentage := Some 50; next_variant_a := Some "a"; next_variant_b := None |}.

(** A flow with one A/B split. *)
Definition ab_flow : FlowDefinition :=
  flow_of [ABSplit ab_split_1; delay "a" None] "split-1".

(** A page driver on which every call resolves. *)
Definition obliging_driver : BrowserFlowBuilder.driver := λ _ _, None.

(** A page driver on which every call of [dragActionToCanvas] is
    rejected. *)
Definition stuck_driver : BrowserFlowBuilder.driver :=
  λ _ c, match c with
         | BrowserFlowBuilder.dragActionToCanvas _ =>
             Some (BrowserFlowBuilder.RejectedError (JS.new_Error "Target closed"))
         | _ => None
         end.

Definition metric_trigger : APIFlowCreator.KlaviyoAPITrigger :=
  {| APIFlowCreator.t_type := "metric"; APIFlowCreator.t_id := "XyZ123";
     APIFlowCreator.t_trigger_filter := None |}.

(** An operation that fails with the same error at every invocation. *)
Definition always_boom : Retry.operation nat :=
  λ _, Retry.Rejected (Retry.ThrownError (JS.new_Error "boom")).

(** An operation that fails twice and then returns 7. *)
Definition flaky_twice : Retry.operation nat :=
  λ k, if bool_decide (k < 2)%nat
       then Retry.Rejected (Retry.ThrownError (JS.new_Error "503 Service Unavailable"))
       else Retry.Resolved 7%nat.

(** An operation that is refused at every invocation. *)
Definition auth_failure : Retry.operation nat :=
  λ _, Retry.Rejected (Retry.ThrownError (JS.new_Error "401 Unauthorized")).

(** Options that retry rate-limit errors only. *)
Definition only_429 : Retry.PartialRetryOptions :=
  {| Retry.p_maxAttempts := None; Retry.p_baseDelay := None;
     Retry.p_backoffFactor := None; Retry.p_maxDelay := None;
     Retry.p_retryableErrors := Some ["429"] |}.

(** The entry id is the id of no action. *)
Definition stray_entry_flow : FlowDefinition :=
  flow_of [delay "b" None; delay "a" (Some "b")] "start".

(** The only action links to an id that no action has. *)
Definition dangling_flow : FlowDefinition :=
  flow_of [delay "a" (Some "ghost")] "a".

(** The only action has the empty string as its [next]. *)
Definition empty_link_flow : FlowDefinition :=
  flow_of [delay "a" (Some EmptyString)] "a".

(** [c] is linked from nowhere. *)
Definition island_flow : FlowDefinition :=
  flow_of [delay "c" None; delay "a" (Some "b"); delay "b" None] "a".

(** U+2003 (em space) followed by U+00A0, in UTF-8. *)
Definition wide_blank : string :=
  String (ascii_of_nat 226) (String (ascii_of_nat 128) (String (ascii_of_nat 131)
    (String (ascii_of_nat 194) (String (ascii_of_nat 160) EmptyString)))).

(** The flow [cycle_flow] under a name of white space only. *)
Definition blank_named_flow : FlowDefinition :=
  {| name := wide_blank;
     trigger := trigger cycle_flow;
     actions := actions cycle_flow;
     entry_action_id := entry_action_id cycle_flow;
     profile_filter := None;
     settings := None;
     tags := None |}.

End Examples.

(** ** Vocabulary for the REST compiler properties *)

Module Compile.
Import Types JS APIFlowCreator.

Definition all_weekdays : list Weekday :=
  [monday; tuesday; wednesday; thursday; friday; saturday; sunday].

(** [action.data.message.<key>] of a compiled action. *)
Definition message_field (key : string) (act : KlaviyoAPIAction) : option json :=
  get "message" (data act) ≫= get key.

(** The statement that the compiled actions follow the definition's
    order and reach the payload as they are, next to the entry id. *)
Definition keeps_definition_order (self : creator) (d : FlowDefinition)
    (trigger : KlaviyoAPITrigger) (templates : gmap string string) : Prop :=
  ∃ acts payload,
    transformActions self (actions d) (settings d) (Some templates) = inr acts ∧
    length acts = length (actions d) ∧
    (∀ i a, actions d !! i = Some a →
            temporary_id <$> acts !! i = Some (action_id a)) ∧
    buildFlow_payload self d trigger templates = inr payload ∧
    buildPayload d trigger acts = payload ∧
    p_actions (a_definition (attributes (p_data payload))) = acts ∧
    p_entry_action_id (a_definition (attributes (p_data payload))) = entry_action_id d.

(** The statement that the REST compiler rejects a flow with an error
    naming the A/B split [ab]. *)
Definition rejects_naming (self : creator) (d : FlowDefinition)
    (templates : gmap string string) (ab : ABSplitAction) : Prop :=
  ∃ e, transformActions self (actions d) (settings d) (Some templates) = inl e ∧
       includes (message e) (ab_id ab) || includes (err_name e) (ab_id ab) = true.

End Compile.

(** ** Vocabulary for the retry properties *)

Module RetrySpec.
Import Retry.

(** The error that the k-th invocation ends with, if it fails. *)
Definition rejection {T} (op : operation T) (k : nat) : option JS.Error :=
  match op k with
  | Rejected t => Some (to_Error t)
  | Resolved _ => None
  end.

(** Every invocation fails, with an error that does not end the retries
    early. *)
Definition always_fails_retryably {T} (op : operation T) (opts : RetryOptions) : Prop :=
  ∀ k, ∃ e, rejection op k = Some e ∧ non_retryable opts e = false.

(** The delay before attempt [k + 1], as the specification gives it. *)
Definition spec_delay (opts : RetryOptions) (k : nat) : Z :=
  Z.min (baseDelay opts * backoffFactor opts ^ (Z.of_nat k - 1)) (maxDelay opts).

(** Attempt [k] followed by the delay before attempt [k + 1]. *)
Definition round (opts : RetryOptions) (k : nat) : list event :=
  [Invoke (k - 1); Sleep (spec_delay opts k)].

(** Invocations and sleeps of a run in which every attempt fails. *)
Definition exhausted_schedule (opts : RetryOptions) : list event :=
  match maxAttempts opts with
  | O => []
  | S n => mjoin (round opts <$> seq 1 n) ++ [Invoke n]
  end.

(** The statement that the error thrown after the last attempt is the
    last error and carries the label. *)
Definition rethrows_annotated {T} (op : operation T) (label : string)
    (options : PartialRetryOptions) : Prop :=
  ∃ e, (withRetry op label options).1 = Threw (Some e) ∧
       JS.includes (JS.message e) label || JS.includes (JS.err_name e) label = true.

End RetrySpec.

(** ** Vocabulary for the validator properties *)

Module ValidatorSpec.
Import Types Validator.

(** A step that leaves the definition alone and only adds errors. *)
Definition tame {A} (c : M A) : Prop :=
  ∀ h, definition (c h).2 = definition h ∧ errors h `prefix_of` errors (c h).2.

(** On the definition [d], the step leaves an error that satisfies [P]
    in the list. *)
Definition emits {A} (d : FlowDefinition) (c : M A) (P : string → Prop) : Prop :=
  ∀ h, definition h = d → ∃ e, e ∈ errors (c h).2 ∧ P e.

(** The statement that the validator reports the link from [a] to the
    missing id [t]. *)
Definition reports_dangling (d : FlowDefinition) (a : FlowAction) (t : string) : Prop :=
  valid (validateFlowDefinition d) = false ∧
  ∃ e, e ∈ vr_errors (validateFlowDefinition d) ∧
       JS.includes e (action_id a) = true ∧
       JS.includes e t = true.

End ValidatorSpec.

(** ** Vocabulary for further retry properties *)

Module RetryRuns.
Import Retry RetrySpec.

(** The first [k] invocations fail with errors that are retried. *)
Definition fails_until {T} (op : operation T) (opts : RetryOptions) (k : nat) : Prop :=
  ∀ j, (j < k)%nat → ∃ e, rejection op j = Some e ∧ non_retryable opts e = false.

(** An outcome after which [withRetry] makes no further attempt: a result,
    or an error that matches none of the given patterns. *)
Definition stops {T} (opts : RetryOptions) (o : outcome T) : bool :=
  match o with
  | Resolved _ => true
  | Rejected t => non_retryable opts (to_Error t)
  end.

(** How [withRetry] completes on such an outcome. *)
Definition final_of {T} (o : outcome T) : completion T :=
  match o with
  | Resolved v => Returned v
  | Rejected t => Threw (Some (to_Error t))
  end.

(** The last event of the run when that outcome comes at [attempt]. *)
Definition final_event {T} (label : string) (attempt : nat) (o : outcome T) : event :=
  match o with
  | Resolved _ =>
      if bool_decide (1 < attempt)%nat
      then Log info (label +:+ " succeeded on attempt " +:+ pretty attempt)
      else Invoke (attempt - 1)
  | Rejected t =>
      Log error (label +:+ " failed with non-retryable error: "
                 +:+ JS.message (to_Error t))
  end.

(** Invocations and sleeps of a run that invokes the operation [n]
    times: they alternate, from the first invocation to the last. *)
Definition schedule (opts : RetryOptions) (n : nat) : list event :=
  match n with
  | O => []
  | S m => mjoin (round opts <$> seq 1 m) ++ [Invoke m]
  end.

End RetryRuns.

(** ** Vocabulary for further validator properties *)

Module ValidatorRules.
Import Types Validator.

(** On the definition [d], the step leaves the definition alone and adds
    no error exactly when [ok] holds. *)
Definition checks (d : FlowDefinition) (c : M unit) (ok : Prop) : Prop :=
  ∀ h, definition h = d →
       definition (c h).2 = d ∧
       ∃ es, errors (c h).2 = errors h ++ es ∧ (es = [] ↔ ok).

(** On the definition [d], the step adds exactly the warnings [ws]. *)
Definition warns (d : FlowDefinition) (c : M unit) (ws : list string) : Prop :=
  ∀ h, definition h = d →
       definition (c h).2 = d ∧ warnings (c h).2 = warnings h ++ ws.

(** The number of actions that carry the id [id]. *)
Definition occurrences (id : string) (d : FlowDefinition) : nat :=
  length (filter (λ a, action_id a = id) (actions d)).

(** An optional string that is set and not empty. *)
Definition given (o : option string) : Prop :=
  ∃ s, o = Some s ∧ s ≠ EmptyString.

Definition trigger_ok (t : FlowTrigger) : Prop :=
  match t with
  | TriggerMetric m => metric_name m ≠ EmptyString ∨ given (metric_id m)
  | TriggerList l => list_name l ≠ EmptyString ∨ given (list_id l)
  | TriggerDate t => property_name t ≠ EmptyString
  end.

Definition reentry_ok (r : ReentryConfig) : Prop :=
  re_mode r ∈ ["once"; "multiple"; "time-based"] ∧
  (re_mode r = "time-based" →
   (∃ v, re_value r = Some v ∧ 0 < v) ∧
   (∃ u, re_unit r = Some u ∧ u ∈ ["hours"; "days"; "weeks"])).

(** The flows that the validator lets through. *)
Record accepts (d : FlowDefinition) : Prop := {
  acc_name : trim (name d) ≠ EmptyString;
  acc_trigger : trigger_ok (trigger d);
  acc_actions : actions d ≠ [];
  acc_entry : entry_action_id d ≠ EmptyString ∧
              entry_action_id d ∈ action_id <$> actions d;
  acc_unique : ∀ id, id ∉ prototype_keys → (occurrences id d ≤ 1)%nat;
  acc_links : ∀ a t, a ∈ actions d → t ∈ outgoing_links a →
                     t ∈ action_id <$> actions d;
  acc_reentry : ∀ st r, settings d = Some st → reentry st = Some r → reentry_ok r;
}.

(** The two warnings, each present when its filter has no condition
    group. *)
Definition filter_warnings (d : FlowDefinition) : list string :=
  match profile_filter d with
  | Some pf =>
      if bool_decide (condition_groups pf = [])
      then ["profile_filter has empty condition_groups — it will have no effect."]
      else []
  | None => []
  end ++
  match trigger d with
  | TriggerMetric t =>
      match trigger_filter t with
      | Some tf =>
          if bool_decide (condition_groups tf = [])
          then ["trigger_filter has empty condition_groups — it will have no effect."]
          else []
      | None => []
      end
  | _ => []
  end.

End ValidatorRules.

(** ** Vocabulary for further REST compiler properties *)

Module PayloadGraph.
Import Types JS APIFlowCreator.

Definition target_of (l : link) : option string :=
  match l with
  | Target id => Some id
  | Absent | Null => None
  end.

(** The ids that the links of a compiled action point to. *)
Definition link_targets (l : Links) : list string :=
  omap target_of [next l; l_next_if_true l; l_next_if_false l].

(** The definition part of a payload. *)
Definition definition_of (p : KlaviyoCreateFlowPayload) : FlowDefinitionPayload :=
  a_definition (attributes (p_data p)).

(** Every link of the payload and its entry id name an action of the
    payload. *)
Definition closed_payload (p : KlaviyoCreateFlowPayload) : Prop :=
  p_entry_action_id (definition_of p) ∈ temporary_id <$> p_actions (definition_of p) ∧
  ∀ act t, act ∈ p_actions (definition_of p) → t ∈ link_targets (links act) →
           t ∈ temporary_id <$> p_actions (definition_of p).

End PayloadGraph.

(** ** Vocabulary for the e-mail helpers *)

Module EmailSpec.
Import JS EmailBuilder.

(** What one character becomes in escaped HTML. *)
Definition entity (c : ascii) : string :=
  if bool_decide (c = "&"%char) then "&amp;"
  else if bool_decide (c = "034"%char) then "&quot;"
  else if bool_decide (c = "'"%char) then "&#39;"
  else if bool_decide (c = "<"%char) then "&lt;"
  else if bool_decide (c = ">"%char) then "&gt;"
  else String c EmptyString.

(** Every character replaced by its entity, in one pass. *)
Fixpoint escape_each (str : string) : string :=
  match str with
  | EmptyString => EmptyString
  | String c rest => entity c +:+ escape_each rest
  end.

(** The characters of a string. *)
Fixpoint chars (str : string) : list ascii :=
  match str with
  | EmptyString => []
  | String c rest => c :: chars rest
  end.

(** The characters that open or close a tag or an attribute value. *)
Definition markup : list ascii := ["<"; ">"; "034"; "'"]%char.

(** The sources of the image sections, in the order of the sections. *)
Definition image_srcs (content : EmailContent) : list string :=
  omap (λ section, match section with
                   | Image s => Some (src s)
                   | _ => None
                   end) (sections content).

End EmailSpec.

(** ** Vocabulary for the configuration check *)

Module ConfigSpec.
Import Config.

Definition needs_api_key (m : BuildMode) : Prop := m = api ∨ m = hybrid.
Definition needs_login (m : BuildMode) : Prop := m = browser ∨ m = hybrid.

End ConfigSpec.

(** ** Vocabulary for the settings overrides *)

Module ServerSpec.
Import Types JS Server.

(** What the loop over the actions makes of one action. *)
Definition overridden (o : SettingsOverrides) (action : FlowAction) : FlowAction :=
  match action_overrides o with
  | Some table => override_action table action
  | None => action
  end.

(** The override that the UI sent for an action id, if any. *)
Definition override_for (o : SettingsOverrides) (id : string) : option ActionOverride :=
  action_overrides o ≫= (.!! id).

(** The first value of the list that is set, else the fallback. *)
Fixpoint first_set (l : list (option bool)) (fallback : bool) : bool :=
  match l with
  | [] => fallback
  | Some b :: _ => b
  | None :: rest => first_set rest fallback
  end.

End ServerSpec.

(** ** Example overrides and a flow that sends *)

Module ServerExamples.
Import Types Server Examples.

Definition welcome_email : SendEmailAction :=
  {| se_id := "welcome"; se_name := "Welcome"; subject_line := None;
     preview_text := None; se_smart_sending := None; se_utm_tracking := Some false;
     content := None; se_next := Some "nudge" |}.

Definition nudge_sms : SendSmsAction :=
  {| sms_id := "nudge"; sms_name := "Nudge"; body := Some "Still there?";
     sms_smart_sending := Some true; sms_utm_tracking := None; sms_next := None |}.

Definition sending_flow : FlowDefinition :=
  flow_of [SendEmail welcome_email; SendSms nudge_sms] "welcome".

(** The UI turned smart sending off for the flow, asked for the e-mail
    consent filter, and turned UTM tracking on for [welcome]. *)
Definition ui_overrides : SettingsOverrides :=
  {| o_smart_sending := Some false; o_utm_tracking := None;
     reentry_mode := None; reentry_value := None; reentry_unit := None;
     profile_filter_enabled := Some true; profile_filter_type := None;
     trigger_filter_enabled := None; trigger_filter_field := None;
     trigger_filter_op := None; trigger_filter_value := None;
     action_overrides :=
       Some {[ "welcome" := {| ao_smart_sending := None;
                               ao_utm_tracking := Some true |} ]} |}.

End ServerExamples.

(** * Properties *)

(** ** Graph traversal *)

Section traverse_facts.
Import Types BrowserFlowBuilder Walk.

Variable m : gmap string FlowAction.
Hypothesis m_keys : ∀ i a, m !! i = Some a → action_id a = i.

Lemma walked_refl froms w :
  (∀ t, t ∈ froms → t ∈ visited w) → walked m froms w w.
Proof.
  intros Hr. split; [done | done | | done | done].
  exists []. rewrite app_nil_r. split; [done|]. split; [constructor|].
  intros a. rewrite elem_of_nil. naive_solver.
Qed.

Lemma walked_app A B w w1 w2 :
  walked m A w w1 → walked m B w1 w2 → walked m (A ++ B) w w2.
Proof.
  intros [M1 R1 (n1 & O1 & D1 & N1) C1 S1] [M2 R2 (n2 & O2 & D2 & N2) C2 S2].
  split.
  - set_solver.
  - intros t [?|?]%elem_of_app; [apply M2, R1|apply R2]; done.
  - exists (n1 ++ n2). split; [by rewrite O2, O1, app_assoc|]. split.
    + rewrite fmap_app. apply NoDup_app. split; [done|]. split; [|done].
      intros i (a1 & -> & Ha1)%list_elem_of_fmap (a2 & Heq & Ha2)%list_elem_of_fmap.
      apply N1 in Ha1. apply N2 in Ha2. rewrite <- Heq in Ha2. naive_solver.
    + intros a. rewrite elem_of_app, N1, N2.
      destruct (decide (action_id a ∈ visited w1)); set_solver.
  - intros i t Hi Hn He.
    destruct (decide (i ∈ visited w1)); [apply M2; eauto | eauto].
  - intros i Hi Hn.
    destruct (decide (i ∈ visited w1)) as [Hi1|Hi1].
    + destruct (S1 i Hi1 Hn) as (r & ? & ?). exists r. set_solver.
    + destruct (S2 i Hi Hi1) as (r & ? & ?). exists r. set_solver.
Qed.

Lemma walked_missing i w :
  m !! i = None →
  walked m [i] w {| ordered := ordered w; visited := {[i]} ∪ visited w |}.
Proof.
  intros Hm. split; simpl.
  - set_solver.
  - set_solver.
  - exists []. rewrite app_nil_r. split; [done|]. split; [constructor|].
    intros a. rewrite elem_of_nil. split; [done|]. intros (Ha & Hv & Hn).
    assert (action_id a = i) by set_solver. congruence.
  - intros j t Hj Hn (a & Ha & _).
    assert (j = i) by set_solver. congruence.
  - intros j Hj Hn. assert (j = i) by set_solver. subst.
    exists i. split; [set_solver|reflexivity].
Qed.

Lemma walked_visit i a w w' :
  i ∉ visited w → m !! i = Some a →
  walked m (outgoing_links a) (enter i a w) w' →
  walked m [i] w w'.
Proof.
  intros Hi Hm [M R (n & O & D & N) C S]; simpl in *.
  assert (action_id a = i) as Hid by eauto.
  split.
  - set_solver.
  - set_solver.
  - exists (a :: n). split; [by rewrite O, <- app_assoc|]. split.
    + rewrite fmap_cons. constructor; [|done].
      intros (b & Hb & Hbn)%list_elem_of_fmap. apply N in Hbn. set_solver.
    + intros b. rewrite elem_of_cons, N. split.
      * intros [-> | (? & ? & ?)]; [|set_solver].
        rewrite Hid. split; [done|]. set_solver.
      * intros (Hb & Hv & Hn).
        destruct (decide (action_id b = i)) as [E|E]; [|set_solver].
        left. rewrite E in Hb. congruence.
  - intros j t Hj Hn He. destruct (decide (j = i)) as [->|E].
    + destruct He as (a' & Ha' & Ht). assert (a' = a) by congruence.
      subst a'. by apply R.
    + apply (C j t); set_solver.
  - intros j Hj Hn. exists i. split; [set_solver|].
    destruct (decide (j = i)) as [->|E]; [reflexivity|].
    destruct (S j) as (r & Hr & Hrt); [done|set_solver|].
    eapply rtc_l; [|done]. by exists a.
Qed.

Lemma traverse_enter fuel i a w :
  JS.truthy_string i = true → i ∉ visited w → m !! i = Some a →
  traverse (S fuel) m (Some i) w = traverse_links fuel m (link_fields a) (enter i a w).
Proof.
  intros Ht Hv Hm. simpl. rewrite Ht, Hm. simpl.
  rewrite bool_decide_eq_false_2 by done. unfold enter.
  destruct a; simpl;
    repeat match goal with
           | |- context [traverse fuel m ?l ?w] => destruct (traverse fuel m l w); simpl
           end; done.
Qed.

Lemma measure_mono (w w' : walk) :
  visited w ⊆ visited w' →
  (size (dom m ∖ visited w') ≤ size (dom m ∖ visited w))%nat.
Proof. intros H. apply subseteq_size. set_solver. Qed.

Lemma measure_enter i a w :
  i ∉ visited w → m !! i = Some a →
  (size (dom m ∖ visited (enter i a w)) < size (dom m ∖ visited w))%nat.
Proof.
  intros Hv Hm. apply subset_size. simpl.
  assert (i ∈ dom m) by (apply elem_of_dom; eauto).
  set_solver.
Qed.

(** With more fuel than there are unmarked keys of [actionMap], the walk
    returns, and it has walked from its argument. *)
Lemma traverse_enough_fuel fuel : ∀ id w,
  (size (dom m ∖ visited w) < fuel)%nat →
  ∃ w', traverse fuel m id w = Some w' ∧ walked m (option_list (present id)) w w'.
Proof.
  induction fuel as [|fuel IH]; intros id w Hsz; [lia|].
  assert (∀ ls w1, (size (dom m ∖ visited w1) < fuel)%nat →
            ∃ w', traverse_links fuel m ls w1 = Some w' ∧
                  walked m (omap present ls) w1 w') as IHl.
  { induction ls as [|l ls IHls]; intros w1 H1.
    - eexists; split; [done|]. apply walked_refl. set_solver.
    - assert (omap present (l :: ls) = option_list (present l) ++ omap present ls)
        as -> by (simpl; by destruct (present l)).
      destruct (IH l w1 H1) as (w2 & E2 & W2). simpl. rewrite E2. simpl.
      destruct (IHls w2) as (w3 & E3 & W3).
      { pose proof (measure_mono w1 w2 (walked_mono _ _ _ _ W2)). lia. }
      exists w3. split; [done|]. by eapply walked_app. }
  destruct id as [i|]; [|eexists; split; [done|]; apply walked_refl; set_solver].
  destruct (JS.truthy_string i) eqn:Ht; cycle 1.
  { exists w. simpl. rewrite Ht. simpl. split; [done|]. apply walked_refl. set_solver. }
  destruct (decide (i ∈ visited w)) as [Hv|Hv].
  { exists w. simpl. rewrite Ht. simpl. rewrite bool_decide_eq_true_2 by done.
    split; [done|]. apply walked_refl. set_solver. }
  destruct (m !! i) as [a|] eqn:Hm; cycle 1.
  { eexists. simpl. rewrite Ht, Hm. simpl. rewrite bool_decide_eq_false_2 by done.
    split; [done|]. by apply walked_missing. }
  rewrite (traverse_enter fuel i a w) by done.
  destruct (IHl (link_fields a) (enter i a w)) as (w' & E & W).
  { pose proof (measure_enter i a w Hv Hm). lia. }
  exists w'. split; [done|]. simpl. rewrite Ht. simpl. by apply (walked_visit i a).
Qed.

End traverse_facts.

Section actionMap_facts.
Import Types BrowserFlowBuilder Walk.

Lemma build_actionMap_snoc acts a :
  build_actionMap (acts ++ [a]) = <[action_id a := a]> (build_actionMap acts).
Proof. unfold build_actionMap. by rewrite foldl_snoc. Qed.

Lemma build_actionMap_lookup acts i a :
  build_actionMap acts !! i = Some a → a ∈ acts ∧ action_id a = i.
Proof.
  revert i a. induction acts as [|b acts IH] using rev_ind; intros i a.
  - unfold build_actionMap. simpl. by rewrite lookup_empty.
  - rewrite build_actionMap_snoc, lookup_insert.
    case_decide as E.
    + intros [= ->]. set_solver.
    + intros H. apply IH in H. set_solver.
Qed.

Lemma build_actionMap_unique acts a :
  NoDup (action_id <$> acts) → a ∈ acts →
  build_actionMap acts !! action_id a = Some a.
Proof.
  induction acts as [|b acts IH] using rev_ind; intros Hnd Ha.
  - set_solver.
  - rewrite build_actionMap_snoc, lookup_insert.
    rewrite fmap_app in Hnd. apply NoDup_app in Hnd as (Hnd & Hdisj & _).
    apply elem_of_app in Ha as [Ha|Ha].
    + case_decide as E; [|by apply IH].
      exfalso. apply (Hdisj (action_id a)); [|rewrite <- E; set_solver].
      apply list_elem_of_fmap. eauto.
    + assert (a = b) as -> by set_solver. by rewrite decide_True.
Qed.

Lemma build_actionMap_size acts :
  (size (dom (build_actionMap acts)) ≤ length acts)%nat.
Proof.
  induction acts as [|b acts IH] using rev_ind.
  - unfold build_actionMap. simpl. by rewrite dom_empty_L, size_empty.
  - rewrite build_actionMap_snoc, dom_insert_L, length_app, size_union_alt, size_singleton.
    simpl.
    assert (size (dom (build_actionMap acts) ∖ {[action_id b]})
            ≤ size (dom (build_actionMap acts)))%nat
      by (apply subseteq_size; set_solver).
    lia.
Qed.

(** [getActionSequence] returns, and its result is the walk from the
    entry followed by the actions left unmarked. *)
Lemma getActionSequence_walked d :
  ∃ w, getActionSequence d = Some (ordered w ++ unvisited (actions d) (visited w)) ∧
       walked (build_actionMap (actions d))
         (option_list (present (Some (entry_action_id d))))
         {| ordered := []; visited := ∅ |} w.
Proof.
  unfold getActionSequence.
  destruct (traverse_enough_fuel (build_actionMap (actions d))
              (λ i a H, proj2 (build_actionMap_lookup _ i a H))
              (S (length (actions d))) (Some (entry_action_id d))
              {| ordered := []; visited := ∅ |}) as (w & E & W).
  { simpl. pose proof (build_actionMap_size (actions d)).
    assert (size (dom (build_actionMap (actions d)) ∖ ∅)
            ≤ size (dom (build_actionMap (actions d))))%nat
      by (apply subseteq_size; set_solver).
    lia. }
  exists w. by rewrite E.
Qed.

Lemma visited_reachable d w i :
  walked (build_actionMap (actions d))
    (option_list (present (Some (entry_action_id d))))
    {| ordered := []; visited := ∅ |} w →
  i ∈ visited w → reachable d i.
Proof.
  intros W Hi. destruct (walked_sound _ _ _ _ W i Hi) as (r & Hr & Hrt); [set_solver|].

  simpl in Hr. destruct (JS.truthy_string (entry_action_id d)) eqn:Ht; [|set_solver].
  assert (r = entry_action_id d) as -> by set_solver.
  clear Hi. revert i Hrt. apply (rtc_ind_r (reachable d)); [by constructor|].
  intros y z _ (a & Ha & Hy) IH.
  apply build_actionMap_lookup in Ha as [? ?]. by eapply reach_link.
Qed.

Lemma reachable_visited d w i :
  NoDup (action_id <$> actions d) →
  walked (build_actionMap (actions d))
    (option_list (present (Some (entry_action_id d))))
    {| ordered := []; visited := ∅ |} w →
  reachable d i → i ∈ visited w.
Proof.
  intros Hnd W. induction 1 as [Ht|i a t _ IH Ha Hid Hl].
  - apply (walked_roots _ _ _ _ W). simpl. rewrite Ht. set_solver.
  - apply (walked_closed _ _ _ _ W i t); [done|set_solver|].
    exists a. split; [|done]. rewrite <- Hid. by apply build_actionMap_unique.
Qed.

End actionMap_facts.

Section traversal_claims.
Import Types BrowserFlowBuilder Walk Examples.

Lemma getActionSequence_split d :
  NoDup (action_id <$> actions d) →
  ∃ w, getActionSequence d = Some (ordered w ++ unvisited (actions d) (visited w)) ∧
       NoDup (action_id <$> ordered w) ∧
       (∀ a, a ∈ ordered w ↔ a ∈ actions d ∧ action_id a ∈ visited w) ∧
       (∀ i, i ∈ visited w ↔ reachable d i).
Proof.
  intros Hnd. destruct (getActionSequence_walked d) as (w & E & W).
  exists w. split; [done|].
  destruct (walked_new _ _ _ _ W) as (new & O & D & N). simpl in O. subst new.
  split; [done|]. split.
  - intros a. rewrite N. simpl. split.
    + intros (Ha & Hv & _). by apply build_actionMap_lookup in Ha as [? _].
    + intros [Ha Hv]. split; [by apply build_actionMap_unique|]. set_solver.
  - intros i. split; [by eapply visited_reachable|by eapply reachable_visited].
Qed.

(** C1 (as amended): for every flow whose action ids are pairwise
    distinct, [getActionSequence] returns a list in which every action
    of the flow appears exactly once: it has as many elements as the flow
    has actions and it is a permutation of them (and so are the ids),
    whatever cycles or shared successors the links form; and on the flow
    with entry [A], [A.next = B], [B.next = A] it returns [[A; B]]. *)
Theorem getActionSequence_visits_each_once :
  (∀ d, NoDup (action_id <$> actions d) →
        ∃ out, getActionSequence d = Some out ∧ visits_each_once d out) ∧
  getActionSequence cycle_flow = Some [delay "A" (Some "B"); delay "B" (Some "A")].
Proof.
  split; [|by vm_compute].
  intros d Hnd. destruct (getActionSequence_split d Hnd) as (w & E & D & N & _).
  eexists. split; [exact E|].
  assert (ordered w ++ unvisited (actions d) (visited w) ≡ₚ actions d) as HP.
  { apply NoDup_Permutation.
    - apply NoDup_app. split; [by eapply NoDup_fmap_1|]. split.
      + intros a Ha. apply N in Ha as [_ Hv]. unfold unvisited.
        rewrite list_elem_of_filter. tauto.
      + apply NoDup_filter. by eapply NoDup_fmap_1.
    - by eapply NoDup_fmap_1.
    - intros a. unfold unvisited. rewrite elem_of_app, N, list_elem_of_filter.
      destruct (decide (action_id a ∈ visited w)); tauto. }
  split; [by rewrite HP|]. split; [by rewrite HP|done].
Qed.

Lemma getActionSequence_visits_each_once_witness :
  ∃ out, getActionSequence cycle_flow = Some out ∧ visits_each_once cycle_flow out.
Proof.
  apply (proj1 getActionSequence_visits_each_once cycle_flow).
  apply (bool_decide_unpack _). vm_compute. exact I.
Defined.

(** C1, counterexample: when two actions share an id, the output is
    shorter than the list of actions. *)
Lemma getActionSequence_twin_dropped :
  ¬ ∃ out, getActionSequence twin_flow = Some out ∧ visits_each_once twin_flow out.
Proof.
  intros (out & E & Hlen & _).
  assert (getActionSequence twin_flow = Some [delay "A" None]) as E' by (by vm_compute).
  rewrite E' in E. injection E as <-. simpl in Hlen. lia.
Qed.

(** C2 (as amended): for every flow whose action ids are pairwise
    distinct, the output of [getActionSequence] consists of actions
    reachable from the entry, followed by exactly the actions that are
    unreachable from it, these in their definition order. *)
Theorem getActionSequence_unreachable_last d :
  NoDup (action_id <$> actions d) →
  ∃ out, getActionSequence d = Some out ∧ unreachable_last d out.
Proof.
  intros Hnd. destruct (getActionSequence_split d Hnd) as (w & E & D & N & R).
  eexists. split; [exact E|].
  exists (ordered w), (unvisited (actions d) (visited w)). split; [done|]. split.
  - intros y Hy. apply R. by apply N in Hy as [_ ?].
  - split; [|apply sublist_filter].
    intros x. unfold unvisited. rewrite list_elem_of_filter, R. tauto.
Qed.

Lemma getActionSequence_unreachable_last_witness :
  ∃ out, getActionSequence island_flow = Some out ∧ unreachable_last island_flow out.
Proof.
  apply (getActionSequence_unreachable_last island_flow).
  apply (bool_decide_unpack _). vm_compute. exact I.
Defined.

Lemma twin_link_flow_reachable i :
  reachable twin_link_flow i → i = "a" ∨ i = "b".
Proof.
  induction 1 as [|i a t _ IH Ha Hid Hl]; [by left|].
  right. simpl in Ha.
  repeat (apply elem_of_cons in Ha as [->|Ha]); simpl in *;
    try (apply elem_of_nil in Ha; destruct Ha);
    try (apply elem_of_nil in Hl; destruct Hl);
    try (by apply list_elem_of_singleton in Hl);
    subst; by destruct IH.
Qed.

(** C2, counterexample: with two actions of id [a], the unreachable [c]
    comes out before [b], which the first [a] links to. *)
Lemma getActionSequence_twin_link_order :
  ¬ ∃ out, getActionSequence twin_link_flow = Some out ∧
           unreachable_last twin_link_flow out.
Proof.
  intros (out & E & pre & post & Hout & Hpre & Hpost & _).
  assert (getActionSequence twin_link_flow
          = Some [delay "a" None; delay "c" None; delay "b" None]) as E'
    by (by vm_compute).
  rewrite E' in E. injection E as <-.
  assert (delay "c" None ∈ post) as Hc.
  { apply Hpost. split; [set_solver|].
    intros [?|?]%twin_link_flow_reachable; discriminate. }
  assert (delay "b" None ∉ post) as Hb.
  { intros [_ Hn]%Hpost. apply Hn. simpl.
    apply (reach_link twin_link_flow "a" (delay "a" (Some "b")) "b");
      [by constructor|set_solver|done|set_solver]. }
  destruct pre as [|p1 [|p2 [|p3 [|p4 pre]]]]; simplify_eq/=.
  - apply Hb. set_solver.
  - apply Hb. set_solver.
  - apply Hb. set_solver.
  - by apply elem_of_nil in Hc.
Qed.

End traversal_claims.

(** ** REST compiler *)

Section compiler_claims.
Import Types JS APIFlowCreator BrowserFlowBuilder Compile Examples.

(** C3: [resolveSetting] returns the per-action value when it is
    defined, else the flow default when it is defined, else the
    fallback; and every compiled send-email and send-sms action carries
    smart sending resolved with fallback [true] and UTM tracking resolved
    with fallback [false]. *)
Theorem resolveSetting_precedence :
  (∀ b flowDefault fallback, resolveSetting (Some b) flowDefault fallback = b) ∧
  (∀ b fallback, resolveSetting None (Some b) fallback = b) ∧
  (∀ fallback, resolveSetting None None fallback = fallback) ∧
  (∀ self a settings templateIds,
     ∃ act, transformAction self (SendEmail a) settings templateIds = inr act ∧
       message_field "smart_sending_enabled" act =
         Some (JBool (default (default true (settings ≫= fs_smart_sending))
                        (se_smart_sending a))) ∧
       message_field "add_tracking_params" act =
         Some (JBool (default (default false (settings ≫= fs_utm_tracking))
                        (se_utm_tracking a)))) ∧
  (∀ self a settings templateIds,
     ∃ act, transformAction self (SendSms a) settings templateIds = inr act ∧
       message_field "smart_sending_enabled" act =
         Some (JBool (default (default true (settings ≫= fs_smart_sending))
                        (sms_smart_sending a))) ∧
       message_field "add_tracking_params" act =
         Some (JBool (default (default false (settings ≫= fs_utm_tracking))
                        (sms_utm_tracking a)))).
Proof.
  repeat split; try done.
  - intros self a st tpl. eexists. split; [done|].
    unfold message_field, transformSendEmail, resolveSetting. simpl.
    destruct (template_for tpl (se_id a)) as [t|]; [destruct (truthy_string t)|];
      destruct (se_smart_sending a), (se_utm_tracking a),
        (st ≫= fs_smart_sending), (st ≫= fs_utm_tracking); done.
  - intros self a st tpl. eexists. split; [done|].
    unfold message_field, transformSendSms, resolveSetting. simpl.
    destruct (sms_smart_sending a), (sms_utm_tracking a),
      (st ≫= fs_smart_sending), (st ≫= fs_utm_tracking); done.
Qed.

(** C6: the compiled time delay has [delay_until_weekdays] set to the
    seven weekdays when the unit is [days] and to [null] for every other
    unit. *)
Theorem transformTimeDelay_weekdays self (a : TimeDelayAction) settings templateIds :
  ∃ act, transformAction self (TimeDelay a) settings templateIds = inr act ∧
    get "delay_until_weekdays" (data act) =
      Some (match delay_unit a with
            | days => JArr ((λ d, JStr (weekday_name d)) <$> all_weekdays)
            | minutes | hours | weeks => JNull
            end).
Proof. eexists. split; [done|]. by destruct a as [? ? [] ?]. Qed.

Lemma transformAction_inr self a settings templateIds act :
  transformAction self a settings templateIds = inr act →
  temporary_id act = action_id a.
Proof. destruct a; intros [= <-]; done. Qed.

Lemma transformActions_cases self acts settings templateIds :
  match transformActions self acts settings templateIds with
  | inr out =>
      (∀ ab, ABSplit ab ∉ acts) ∧ temporary_id <$> out = action_id <$> acts
  | inl e => e = new_Error ab_split_message ∧ ∃ ab, ABSplit ab ∈ acts
  end.
Proof.
  unfold transformActions. induction acts as [|a acts IH]; simpl.
  - split; [|done]. intros ab. apply not_elem_of_nil.
  - destruct (transformAction self a settings templateIds) as [e|act] eqn:E.
    + destruct a; try discriminate. injection E as <-.
      split; [done|]. eexists. by left.
    + assert (∀ ab, a ≠ ABSplit ab) as Hna by (intros ab ->; discriminate).
      apply transformAction_inr in E.
      destruct (map_throwing _ acts) as [e|out].
      * destruct IH as [-> [ab Hab]]. split; [done|]. exists ab. by right.
      * destruct IH as [Hno Hids]. split; [|by rewrite !fmap_cons, E, Hids].
        intros ab [Heq|?]%elem_of_cons; [by destruct (Hna ab)|]. by eapply Hno.
Qed.

(** C10 (as amended): for every flow definition without an A/B split,
    [transformActions] returns as many actions as the definition has,
    the i-th with [temporary_id] equal to the id of the i-th action of
    the definition, and [buildPayload] puts this array, unchanged, into
    the payload together with the definition's [entry_action_id]. *)
Theorem transformActions_definition_order self d trigger templates :
  (∀ ab, ABSplit ab ∉ actions d) →
  keeps_definition_order self d trigger templates.
Proof.
  intros Hno. unfold keeps_definition_order, buildFlow_payload.
  pose proof (transformActions_cases self (actions d) (settings d) (Some templates)) as H.
  destruct (transformActions _ _ _ _) as [e|acts].
  { destruct H as [_ [ab Hab]]. by destruct (Hno ab). }
  destruct H as [_ Hids]. exists acts, (buildPayload d trigger acts).
  split; [done|]. split.
  { by rewrite <- (length_fmap temporary_id), Hids, length_fmap. }
  split; [|done].
  intros i a Hi. rewrite <- list_lookup_fmap, Hids, list_lookup_fmap, Hi. done.
Qed.

Lemma transformActions_definition_order_witness :
  keeps_definition_order (new_creator "owner@example.com") island_flow metric_trigger ∅.
Proof.
  apply transformActions_definition_order.
  intros ab Hab. simpl in Hab.
  repeat (apply elem_of_cons in Hab as [Hab|Hab]; [discriminate|]).
  by apply elem_of_nil in Hab.
Defined.

(** C10, counterexample: on a flow with an A/B split the transformation
    throws and returns no array. *)
Lemma transformActions_ab_flow_no_array :
  ¬ keeps_definition_order (new_creator "owner@example.com") ab_flow metric_trigger ∅.
Proof. intros (acts & payload & E & _). discriminate. Qed.

Lemma then_rejects (c k : async) w r :
  (then_ c k w).1 = inl r → (c w).1 = inl r ∨ ∃ w', (k w').1 = inl r.
Proof.
  unfold then_. destruct (c w) as [[r'|[]] w']; simpl; [by left|]. right. eauto.
Qed.

Lemma await_rejects drv c w r :
  (await drv c w).1 = inl r → ∃ h c', drv h c' = Some r.
Proof.
  unfold await. destruct (drv w c) as [r'|] eqn:E; simpl; [|done].
  intros [= <-]. eauto.
Qed.

(** With the page set, whatever [addAction] rejects with is the
    rejection of a driver call. *)
Lemma addAction_rejects drv action w r :
  (addAction drv true action w).1 = inl r → ∃ h c, drv h c = Some r.
Proof.
  unfold addAction. simpl. intros H.
  apply then_rejects in H as [H|[w1 H]]; [by apply await_rejects in H|].
  apply then_rejects in H as [H|[w2 H]]; [by apply await_rejects in H|].
  apply then_rejects in H as [H|[w3 H]]; [done|].
  apply then_rejects in H as [H|[w4 H]].
  { destruct action; try done. by apply await_rejects in H. }
  apply then_rejects in H as [H|[w5 H]]; [by apply await_rejects in H|].
  done.
Qed.

Lemma addAction_resolves drv action w :
  (∀ h c, drv h c = None) →
  (addAction drv true action w).1 = inr tt.
Proof.
  intros Hd. destruct (addAction drv true action w) as [[r|[]] w'] eqn:E; [|done].
  destruct (addAction_rejects drv action w r) as (h & c & Hr); [by rewrite E|].
  by rewrite Hd in Hr.
Qed.

(** The loop of [buildFlow] passes over the whole build order: every
    action is created or leaves one warning, and with a driver that
    rejects nothing all of them are created. *)
Lemma buildFlow_actions_all drv d :
  ∃ acts p, getActionSequence d = Some acts ∧
            buildFlow_actions drv true d = Some p ∧
            (actionsCreated p + length (bp_warnings p) = length acts)%nat ∧
            ((∀ h c, drv h c = None) → actionsCreated p = length acts).
Proof.
  destruct (getActionSequence_walked d) as (w & E & _).
  unfold buildFlow_actions. rewrite E. simpl.
  eexists _, _. split; [done|]. split; [done|].
  generalize (ordered w ++ unvisited (actions d) (visited w)). intros acts.
  assert (∀ p, (actionsCreated (foldl (add_one drv true) p acts)
                + length (bp_warnings (foldl (add_one drv true) p acts))
                = actionsCreated p + length (bp_warnings p) + length acts)%nat ∧
               ((∀ h c, drv h c = None) →
                actionsCreated (foldl (add_one drv true) p acts)
                = (actionsCreated p + length acts)%nat)) as H.
  { induction acts as [|a acts IH]; intros p; simpl; [split; [lia|intros _; lia]|].
    destruct (IH (add_one drv true p a)) as [-> I2]. split.
    - unfold add_one.
      destruct (addAction drv true a (performed p)) as [[r|[]] w']; simpl;
        rewrite ?length_app; simpl; lia.
    - intros Hd. rewrite (I2 Hd). unfold add_one.
      pose proof (addAction_resolves drv a (performed p) Hd) as Hr.
      destruct (addAction drv true a (performed p)) as [[r|[]] w']; [done|].
      simpl. lia. }
  destruct (H {| actionsCreated := 0; bp_warnings := []; performed := [] |}) as [H1 H2].
  simpl in H1, H2. split; [lia|]. intros Hd. by rewrite (H2 Hd).
Qed.



(** On a driver that rejects every drag, each action of the flow leaves
    a warning with the driver's message, and none is created. *)
Lemma buildFlow_actions_stuck_driver :
  ∃ p, buildFlow_actions stuck_driver true ab_flow = Some p ∧
       actionsCreated p = 0%nat ∧
       bp_warnings p = ["Action split-1 (ab-split): Target closed";
                        "Action a (time-delay): Target closed"].
Proof. eexists. split; [vm_compute; reflexivity|]. split; reflexivity. Qed.

(** On a driver that rejects nothing, both actions are created. *)
Lemma buildFlow_actions_obliging_driver :
  ∃ p, buildFlow_actions obliging_driver true ab_flow = Some p ∧
       actionsCreated p = 2%nat ∧ bp_warnings p = [].
Proof. eexists. split; [vm_compute; reflexivity|]. split; reflexivity. Qed.


End compiler_claims.

(** ** Retry layer *)

Section retry_claims.
Import Retry RetrySpec Examples.

Context {T : Type}.

Lemma actions_of_emit e w :
  actions_of (emit e w)
  = actions_of w ++ match e with Log _ _ => [] | _ => [e] end.
Proof. unfold actions_of, emit. simpl. rewrite omap_app. by destruct e. Qed.

Lemma sleeps_emit e w :
  sleeps (emit e w) = sleeps w ++ match e with Sleep ms => [ms] | _ => [] end.
Proof. unfold sleeps, emit. simpl. rewrite omap_app. by destruct e. Qed.

Lemma backoff_delay_spec opts k :
  (1 ≤ k)%nat → backoff_delay opts k = spec_delay opts k.
Proof.
  intros Hk. unfold backoff_delay, spec_delay.
  by replace (Z.of_nat (k - 1)) with (Z.of_nat k - 1) by lia.
Qed.

(** The loop, from any attempt on, when every invocation fails and is
    retried. *)
Lemma attempts_from_exhausts (op : operation T) label opts :
  always_fails_retryably op opts →
  ∀ remaining attempt lastError w,
    (attempt + remaining = S (maxAttempts opts))%nat →
    (1 ≤ attempt)%nat →
    invocations w = (attempt - 1)%nat →
    let res := attempts_from remaining op label opts attempt lastError w in
    invocations res.2 = maxAttempts opts ∧
    sleeps res.2 = sleeps w ++ (spec_delay opts <$> seq attempt (remaining - 1)) ∧
    actions_of res.2 =
      actions_of w ++ mjoin (round opts <$> seq attempt (remaining - 1))
      ++ match remaining with O => [] | S _ => [Invoke (maxAttempts opts - 1)] end ∧
    match remaining with
    | O => res.1 = Threw lastError
    | S _ =>
        ∃ e, rejection op (maxAttempts opts - 1) = Some e ∧
             res.1 = Threw (Some e) ∧
             last (trace res.2) =
               Some (Log error (label +:+ " failed after " +:+ pretty (maxAttempts opts)
                                +:+ " attempts: " +:+ JS.message e))
    end.
Proof.
  intros Hfail. induction remaining as [|r IH]; intros attempt lastError w Hsum H1 Hinv.
  { simpl. rewrite !app_nil_r. split; [lia|done]. }
  destruct (Hfail (invocations w)) as (e & He & Hre).
  unfold rejection in He. cbn [attempts_from invoke].
  destruct (op (invocations w)) as [v|t] eqn:Hop; [done|].
  injection He as He. rewrite He, Hre.
  case_bool_decide as Hlt.
  - destruct r as [|r]; [lia|].
    match goal with |- context [attempts_from (S r) op label opts (S attempt) ?l ?w'] =>
      specialize (IH (S attempt) l w') end.
    destruct IH as (I1 & I2 & I3 & I4); [lia|lia|simpl; lia|].
    cbn zeta. split; [done|]. split; [|split; [|done]].
    + rewrite I2, !sleeps_emit. unfold sleeps at 1. simpl. rewrite omap_app. simpl.
      rewrite !app_nil_r, <- app_assoc. simpl.
      by rewrite Nat.sub_0_r, (backoff_delay_spec opts attempt H1).
    + rewrite I3, !actions_of_emit. unfold actions_of at 1. simpl. rewrite omap_app.
      simpl. rewrite !app_nil_r, <- !app_assoc. simpl.
      by rewrite Nat.sub_0_r, (backoff_delay_spec opts attempt H1), Hinv.
  - assert (r = 0%nat) as -> by lia. assert (attempt = maxAttempts opts) as Ha by lia.
    simpl. split; [lia|]. split.
    { rewrite sleeps_emit. unfold sleeps at 1. simpl. rewrite omap_app. simpl.
      by rewrite !app_nil_r. }
    split.
    { rewrite actions_of_emit. unfold actions_of at 1. simpl. rewrite omap_app. simpl.
      by rewrite !app_nil_r, Hinv, Ha. }
    exists e. unfold rejection. rewrite <- Ha, <- Hinv, Hop, He.
    split; [done|]. split; [done|]. by rewrite last_snoc.
Qed.

(** C4: when every call of the operation fails with a retryable error,
    [withRetry] invokes it exactly [maxAttempts] times, and it sleeps
    between attempt [k] and attempt [k + 1], for
    [min (baseDelay * backoffFactor ^ (k - 1)) maxDelay] milliseconds. *)
Theorem withRetry_exhausts (op : operation T) label options :
  let opts := merge_options options in
  always_fails_retryably op opts →
  let w := (withRetry op label options).2 in
  invocations w = maxAttempts opts ∧
  sleeps w =
    (λ k, Z.min (baseDelay opts * backoffFactor opts ^ (Z.of_nat k - 1)) (maxDelay opts))
      <$> seq 1 (maxAttempts opts - 1) ∧
  actions_of w = exhausted_schedule opts.
Proof.
  intros opts Hfail w. subst w. unfold withRetry. fold opts.
  destruct (attempts_from_exhausts op label opts Hfail (maxAttempts opts) 1 None
              {| invocations := 0; trace := [] |}) as (I1 & I2 & I3 & _);
    [lia|lia|done|].
  split; [exact I1|]. split; [exact I2|].
  rewrite I3. unfold exhausted_schedule. clearbody opts.
  destruct (maxAttempts opts); simpl; [done|]. by rewrite Nat.sub_0_r.
Qed.

(** C9 (as amended): when all [maxAttempts] attempts, at least one,
    fail with a retryable error, [withRetry] throws the error of the last
    attempt as it is; the label is not added to it, it appears in the log:
    the last log line, at level error, reads
    [<label> failed after <maxAttempts> attempts: <message>]. *)
Theorem withRetry_rethrows_last (op : operation T) label options :
  let opts := merge_options options in
  always_fails_retryably op opts →
  (1 ≤ maxAttempts opts)%nat →
  ∃ e, rejection op (maxAttempts opts - 1) = Some e ∧
       (withRetry op label options).1 = Threw (Some e) ∧
       last (trace (withRetry op label options).2) =
         Some (Log error (label +:+ " failed after " +:+ pretty (maxAttempts opts)
                          +:+ " attempts: " +:+ JS.message e)).
Proof.
  intros opts Hfail Hpos. unfold withRetry. fold opts.
  destruct (attempts_from_exhausts op label opts Hfail (maxAttempts opts) 1 None
              {| invocations := 0; trace := [] |}) as (_ & _ & _ & I4);
    [lia|lia|done|].
  destruct (maxAttempts opts); [lia|]. done.
Qed.

End retry_claims.

Section retry_examples.
Import Retry RetrySpec Examples.

Lemma always_boom_fails options :
  p_retryableErrors options = None →
  always_fails_retryably always_boom (merge_options options).
Proof.
  intros Hno k. eexists. split; [done|].
  unfold non_retryable, merge_options. simpl. by rewrite Hno.
Qed.

Lemma withRetry_exhausts_witness :
  let w := (withRetry always_boom "Create flow" no_options).2 in
  invocations w = 3%nat ∧
  sleeps w =
    (λ k, Z.min (1000 * 2 ^ (Z.of_nat k - 1)) 15000) <$> seq 1 (3 - 1) ∧
  actions_of w = exhausted_schedule (merge_options no_options).
Proof.
  apply (withRetry_exhausts always_boom "Create flow" no_options).
  by apply always_boom_fails.
Defined.

Lemma withRetry_rethrows_last_witness :
  ∃ e, rejection always_boom (3 - 1) = Some e ∧
       (withRetry always_boom "Create flow" no_options).1 = Threw (Some e) ∧
       last (trace (withRetry always_boom "Create flow" no_options).2) =
         Some (Log error ("Create flow" +:+ " failed after " +:+ pretty 3%nat
                          +:+ " attempts: " +:+ JS.message e)).
Proof.
  apply (withRetry_rethrows_last always_boom "Create flow" no_options).
  - by apply always_boom_fails.
  - simpl. lia.
Defined.

(** C9, counterexample: the error thrown after three failed attempts
    under the label [Create flow] is the operation's own error, whose
    message does not contain the label. *)
Lemma withRetry_rethrows_unlabelled :
  ¬ rethrows_annotated always_boom "Create flow" no_options.
Proof. intros (e & E & Hinc). vm_compute in E. injection E as <-. by vm_compute in Hinc. Qed.

End retry_examples.

(** ** Validator *)

Section string_facts.
Import JS.

Lemma startsWith_app p b : startsWith (p +:+ b) p = true.
Proof.
  induction p as [|c p IH]; simpl; [by destruct b|].
  by rewrite bool_decide_eq_true_2.
Qed.

Lemma includes_unfold s p :
  includes s p =
  startsWith s p || match s with EmptyString => false | String _ s' => includes s' p end.
Proof. by destruct s. Qed.

Lemma includes_app_l p b : includes (p +:+ b) p = true.
Proof. by rewrite includes_unfold, startsWith_app. Qed.

Lemma includes_app_r a s p : includes s p = true → includes (a +:+ s) p = true.
Proof.
  intros H. induction a as [|c a IH]; simpl; [done|].
  rewrite IH. apply orb_true_r.
Qed.

End string_facts.

Ltac includes_tac :=
  repeat first [apply includes_app_l | apply includes_app_r].

Section validator_facts.
Import Types Validator ValidatorSpec.

Lemma tame_ret {A} (x : A) : tame (ret x).
Proof. by intros h. Qed.

Lemma tame_read : tame read.
Proof. by intros h. Qed.

Lemma tame_push_error msg : tame (push_error msg).
Proof. intros h. split; [done|]. by apply prefix_app_r. Qed.

Lemma tame_push_warning msg : tame (push_warning msg).
Proof. by intros h. Qed.

Lemma tame_bind {A B} (c : M A) (k : A → M B) :
  tame c → (∀ x, tame (k x)) → tame (bind c k).
Proof.
  intros Hc Hk h. unfold bind. destruct (Hc h) as [D E].
  destruct (c h) as [x h1]. destruct (Hk x h1) as [D' E']. simpl in *.
  split; [congruence|]. by etrans.
Qed.

Lemma tame_when b c : tame c → tame (when b c).
Proof. destruct b; [done|]. intros _. apply tame_ret. Qed.

Lemma tame_for_of {A} (l : list A) body :
  (∀ x, tame (body x)) → tame (for_of l body).
Proof.
  intros Hb. induction l as [|x l IH]; [apply tame_ret|].
  simpl. apply tame_bind; [apply Hb|done].
Qed.

Lemma tame_check_link id field l validIds : tame (check_link id field l validIds).
Proof. destruct l; [apply tame_when, tame_push_error|apply tame_ret]. Qed.

End validator_facts.

Create HintDb validator.

#[local] Hint Resolve tame_ret tame_read tame_push_error tame_push_warning
  tame_when tame_for_of tame_check_link : validator.

Ltac tame_tac :=
  repeat first
    [ solve [eauto with validator]
    | progress cbv zeta
    | apply tame_when
    | apply tame_for_of; intros ?
    | apply tame_bind; [|intros ?]
    | match goal with
      | |- ValidatorSpec.tame (match ?x with _ => _ end) => destruct x
      | |- ValidatorSpec.tame (if ?x then _ else _) => destruct x
      end ].

Section validator_claims.
Import Types Validator ValidatorSpec Examples.

Lemma tame_validateActionLinks action validIds :
  tame (validateActionLinks action validIds).
Proof. unfold validateActionLinks. tame_tac. Qed.

Lemma tame_validateTrigger : tame validateTrigger.
Proof. unfold validateTrigger. tame_tac. Qed.

Lemma tame_validateReentry r : tame (validateReentry r).
Proof. unfold validateReentry. tame_tac. Qed.

Lemma tame_body : tame validateFlowDefinition_body.
Proof.
  pose proof tame_validateActionLinks. pose proof tame_validateTrigger.
  pose proof tame_validateReentry.
  unfold validateFlowDefinition_body. tame_tac.
Qed.

(** C7: [validateFlowDefinition] leaves the definition it was given as
    it was, and validating that definition again gives the same result,
    errors and warnings included. *)
Theorem validateFlowDefinition_pure d :
  (validateFlowDefinition_run d).2 = d ∧
  validateFlowDefinition (validateFlowDefinition_run d).2 = validateFlowDefinition d ∧
  vr_errors (validateFlowDefinition (validateFlowDefinition_run d).2)
    = vr_errors (validateFlowDefinition d) ∧
  vr_warnings (validateFlowDefinition (validateFlowDefinition_run d).2)
    = vr_warnings (validateFlowDefinition d).
Proof.
  assert ((validateFlowDefinition_run d).2 = d) as E.
  { unfold validateFlowDefinition_run. simpl.
    by destruct (tame_body {| definition := d; errors := []; warnings := [] |}) as [-> _]. }
  by rewrite E.
Qed.

End validator_claims.

Section validator_links.
Import Types Validator ValidatorSpec Examples.

Lemma emits_push d msg (P : string → Prop) : P msg → emits d (push_error msg) P.
Proof. intros HP h _. exists msg. split; [|done]. simpl. set_solver. Qed.

Lemma emits_when d c (P : string → Prop) : emits d c P → emits d (when true c) P.
Proof. done. Qed.

Lemma emits_read {B} d (k : FlowDefinition → M B) (P : string → Prop) :
  emits d (k d) P → emits d (bind read k) P.
Proof. intros Hk h Hd. unfold bind, read. rewrite Hd. by apply Hk. Qed.

Lemma emits_bind_l {A B} d (c : M A) (k : A → M B) (P : string → Prop) :
  emits d c P → (∀ x, tame (k x)) → emits d (bind c k) P.
Proof.
  intros Hc Hk h Hd. unfold bind. destruct (Hc h Hd) as (e & He & HP).
  destruct (c h) as [x h1]. destruct (Hk x h1) as [_ [more Hm]]. simpl in *.
  exists e. split; [|done]. rewrite Hm. set_solver.
Qed.

Lemma emits_bind_r {A B} d (c : M A) (k : A → M B) (P : string → Prop) :
  tame c → (∀ x, emits d (k x) P) → emits d (bind c k) P.
Proof.
  intros Hc Hk h Hd. unfold bind. destruct (Hc h) as [D _].
  destruct (c h) as [x h1]. simpl in *. apply Hk. congruence.
Qed.

Lemma emits_for_of {A} d (l : list A) body (P : string → Prop) x :
  x ∈ l → emits d (body x) P → (∀ y, tame (body y)) → emits d (for_of l body) P.
Proof.
  intros Hx Hb Ht. induction l as [|y l IH]; [by apply elem_of_nil in Hx|].
  simpl. apply elem_of_cons in Hx as [->|Hx].
  - apply emits_bind_l; [done|]. intros _. by apply tame_for_of.
  - apply emits_bind_r; [done|]. intros _. by apply IH.
Qed.

Lemma emits_check_link d id field t validIds :
  present (Some t) = Some t → t ∉ validIds →
  emits d (check_link id field (Some t) validIds)
    (λ e, JS.includes e id = true ∧ JS.includes e t = true).
Proof.
  intros Hp Hn. unfold check_link. simpl in Hp.
  destruct (JS.truthy_string t); [|done].
  rewrite bool_decide_eq_false_2 by done. simpl.
  apply emits_push. split; includes_tac.
Qed.

Lemma present_Some l t : present l = Some t → l = Some t ∧ present (Some t) = Some t.
Proof.
  destruct l as [s|]; [|done]. simpl. destruct (JS.truthy_string s) eqn:E; [|done].
  intros [= ->]. simpl. by rewrite E.
Qed.

Lemma emits_validateActionLinks d a t validIds :
  t ∈ outgoing_links a → t ∉ validIds →
  emits d (validateActionLinks a validIds)
    (λ e, JS.includes e (action_id a) = true ∧ JS.includes e t = true).
Proof.
  intros Ht Hn. unfold outgoing_links in Ht.
  apply list_elem_of_omap in Ht as (l & Hl & Hp).
  apply present_Some in Hp as [-> Hp].
  destruct a; simpl in *.
  - apply list_elem_of_singleton in Hl as <-. by apply emits_check_link.
  - apply list_elem_of_singleton in Hl as <-. by apply emits_check_link.
  - apply list_elem_of_singleton in Hl as <-. by apply emits_check_link.
  - apply elem_of_cons in Hl as [<-|Hl].
    + apply emits_bind_l; [by apply emits_check_link|]. intros _. apply tame_check_link.
    + apply list_elem_of_singleton in Hl as <-.
      apply emits_bind_r; [apply tame_check_link|]. intros _. by apply emits_check_link.
  - apply elem_of_cons in Hl as [<-|Hl].
    + apply emits_bind_l; [by apply emits_check_link|]. intros _. apply tame_check_link.
    + apply list_elem_of_singleton in Hl as <-.
      apply emits_bind_r; [apply tame_check_link|]. intros _. by apply emits_check_link.
Qed.

Lemma emits_body d a t :
  a ∈ actions d → t ∈ outgoing_links a → t ∉ action_id <$> actions d →
  emits d validateFlowDefinition_body
    (λ e, JS.includes e (action_id a) = true ∧ JS.includes e t = true).
Proof.
  intros Ha Ht Hn.
  pose proof tame_validateActionLinks. pose proof tame_validateTrigger.
  pose proof tame_validateReentry.
  unfold validateFlowDefinition_body. apply emits_read.
  do 4 (apply emits_bind_r; [tame_tac|intros _]).
  apply emits_bind_l; [|intros _; tame_tac].
  rewrite bool_decide_eq_true_2
    by (destruct (actions d); [by apply elem_of_nil in Ha|simpl; lia]).
  apply emits_when. cbv zeta.
  do 2 (apply emits_bind_r; [tame_tac|intros _]).
  apply (emits_for_of _ _ _ _ a); [done| |intros y; tame_tac].
  apply emits_validateActionLinks; [done|].
  by rewrite elem_of_list_to_set.
Qed.

(** C8 (as amended): when a link field of some action of the flow
    ([next], or [next_if_true], [next_if_false], [next_variant_a],
    [next_variant_b], as the action's type has them) holds a non-empty id
    that no action of the flow has, [validateFlowDefinition] returns
    [valid: false] and one of its errors contains both the id of that
    action and the id that is missing. *)
Theorem validateFlowDefinition_dangling_link d a t :
  a ∈ actions d →
  Some t ∈ link_fields a →
  t ≠ EmptyString →
  t ∉ action_id <$> actions d →
  reports_dangling d a t.
Proof.
  intros Ha Hl Hne Hn.
  assert (t ∈ outgoing_links a) as Ht.
  { unfold outgoing_links. apply list_elem_of_omap. exists (Some t).
    split; [done|]. simpl. by destruct t. }
  destruct (emits_body d a t Ha Ht Hn {| definition := d; errors := []; warnings := [] |})
    as (e & He & HP); [done|].
  unfold reports_dangling, validateFlowDefinition, validateFlowDefinition_run. simpl.
  split; [|by exists e].
  apply bool_decide_eq_false_2.
  destruct (errors _); [by apply elem_of_nil in He|done].
Qed.

Lemma validateFlowDefinition_dangling_link_witness :
  reports_dangling dangling_flow (delay "a" (Some "ghost")) "ghost".
Proof.
  apply (validateFlowDefinition_dangling_link dangling_flow
           (delay "a" (Some "ghost")) "ghost").
  - simpl. left.
  - simpl. left.
  - discriminate.
  - simpl. intros H. apply list_elem_of_singleton in H. discriminate.
Defined.

(** C8, counterexample: an action whose [next] is the empty string,
    which no action has as its id, passes validation. *)
Lemma validateFlowDefinition_empty_link_accepted :
  (delay "a" (Some EmptyString) ∈ actions empty_link_flow) ∧
  (Some EmptyString ∈ link_fields (delay "a" (Some EmptyString))) ∧
  (EmptyString ∉ (action_id <$> actions empty_link_flow)) ∧
  ¬ reports_dangling empty_link_flow (delay "a" (Some EmptyString)) EmptyString.
Proof.
  split; [simpl; left|]. split; [simpl; left|]. split.
  - simpl. intros H. apply list_elem_of_singleton in H. discriminate.
  - intros [Hv _]. by vm_compute in Hv.
Qed.

End validator_links.

(** * Further properties *)

(** ** Retry layer, any operation *)

Section retry_runs.
Import Retry RetrySpec RetryRuns.

Context {T : Type}.

(** The loop up to the first outcome that stops it. *)
Lemma attempts_from_stops (op : operation T) label opts :
  ∀ n remaining attempt lastError w,
    (attempt + remaining = S (maxAttempts opts))%nat →
    (1 ≤ attempt)%nat →
    invocations w = (attempt - 1)%nat →
    (n < remaining)%nat →
    (∀ j, (j < n)%nat →
          ∃ e, rejection op (invocations w + j) = Some e ∧ non_retryable opts e = false) →
    stops opts (op (invocations w + n)%nat) = true →
    let res := attempts_from remaining op label opts attempt lastError w in
    res.1 = final_of (op (invocations w + n)%nat) ∧
    invocations res.2 = (invocations w + S n)%nat ∧
    sleeps res.2 = sleeps w ++ (spec_delay opts <$> seq attempt n) ∧
    last (trace res.2)
      = Some (final_event label (attempt + n) (op (invocations w + n)%nat)).
Proof.
  induction n as [|n IH]; intros remaining attempt lastError w Hsum H1 Hinv Hn Hfail Hstop.
  - destruct remaining as [|r]; [lia|]. rewrite Nat.add_0_r in Hstop |- *.
    rewrite Nat.add_0_r.
    cbn [attempts_from invoke]. unfold stops, final_of, final_event in *.
    destruct (op (invocations w)) as [v|t].
    + simpl. rewrite app_nil_r. split; [done|].
      case_bool_decide; simpl.
      * split; [lia|]. split; [|by rewrite last_snoc].
        unfold sleeps. simpl. by rewrite !omap_app, !app_nil_r.
      * split; [lia|]. split; [|by rewrite last_snoc, Hinv].
        unfold sleeps. simpl. by rewrite omap_app, app_nil_r.
    + rewrite Hstop. simpl. rewrite app_nil_r. split; [done|]. split; [lia|].
      split; [|by rewrite last_snoc].
      unfold sleeps. simpl. by rewrite !omap_app, !app_nil_r.
  - destruct remaining as [|r]; [lia|].
    destruct (Hfail 0%nat) as (e & He & Hre); [lia|]. rewrite Nat.add_0_r in He.
    unfold rejection in He. cbn [attempts_from invoke].
    destruct (op (invocations w)) as [v|t] eqn:Hop; [done|]. injection He as He.
    rewrite He, Hre. rewrite bool_decide_eq_true_2 by lia.
    match goal with |- context [attempts_from r op label opts (S attempt) ?l ?w'] =>
      specialize (IH r (S attempt) l w') end.
    cbn zeta.
    destruct IH as (I1 & I2 & I3 & I4); [lia|lia|simpl; lia|lia| | |].
    + intros j Hj. simpl. rewrite <- Nat.add_succ_r. apply Hfail. lia.
    + simpl. by rewrite <- Nat.add_succ_r.
    + simpl in I1, I2, I4.
      replace (S (invocations w + n))%nat with (invocations w + S n)%nat in I1, I4 by lia.
      replace (S (attempt + n))%nat with (attempt + S n)%nat in I4 by lia.
      split; [exact I1|]. split; [rewrite I2; lia|]. split; [|exact I4].
      rewrite I3, !sleeps_emit. unfold sleeps at 1. simpl. rewrite omap_app. simpl.
      rewrite !app_nil_r, <- app_assoc. simpl.
      by rewrite (backoff_delay_spec opts attempt H1).
Qed.

Lemma withRetry_stops_at (op : operation T) label options k :
  let opts := merge_options options in
  fails_until op opts k →
  stops opts (op k) = true →
  (k < maxAttempts opts)%nat →
  (withRetry op label options).1 = final_of (op k) ∧
  invocations (withRetry op label options).2 = S k ∧
  sleeps (withRetry op label options).2 = (spec_delay opts <$> seq 1 k) ∧
  last (trace (withRetry op label options).2) = Some (final_event label (S k) (op k)).
Proof.
  intros opts Hfail Hstop Hk. unfold withRetry. fold opts.
  apply (attempts_from_stops op label opts k (maxAttempts opts) 1 None
           {| invocations := 0; trace := [] |}); simpl; try done; lia.
Qed.


(** X2: when the first [k] attempts fail with retried errors and attempt
    [k + 1], still within [maxAttempts], succeeds, [withRetry] returns
    that attempt's value after exactly [k + 1] invocations, having slept
    the first [k] delays of the backoff schedule; a success at the first
    attempt leaves no log line. *)
Theorem withRetry_succeeds_after (op : operation T) label options k v :
  let opts := merge_options options in
  fails_until op opts k →
  op k = Resolved v →
  (k < maxAttempts opts)%nat →
  (withRetry op label options).1 = Returned v ∧
  invocations (withRetry op label options).2 = S k ∧
  sleeps (withRetry op label options).2
    = ((λ j, Z.min (baseDelay opts * backoffFactor opts ^ (Z.of_nat j - 1)) (maxDelay opts))
         <$> seq 1 k) ∧
  last (trace (withRetry op label options).2)
    = Some (if bool_decide (k = 0)%nat then Invoke 0
            else Log info (label +:+ " succeeded on attempt " +:+ pretty (S k))).
Proof.
  intros opts Hfail Hop Hk.
  destruct (withRetry_stops_at op label options k Hfail) as (R1 & R2 & R3 & R4);
    [by rewrite Hop|done|].
  rewrite Hop in R1, R4. split; [done|]. split; [done|]. split; [done|].
  rewrite R4. simpl. destruct k; [done|].
  rewrite bool_decide_eq_true_2 by lia. by rewrite bool_decide_eq_false_2.
Qed.

(** Whatever the operation does, the sleeps are an initial part of the
    backoff schedule, one fewer than the invocations. *)
Lemma attempts_from_any (op : operation T) label opts :
  ∀ remaining attempt lastError w,
    (attempt + remaining = S (maxAttempts opts))%nat →
    (1 ≤ attempt)%nat →
    invocations w = (attempt - 1)%nat →
    let res := attempts_from remaining op label opts attempt lastError w in
    ∃ m, sleeps res.2 = sleeps w ++ (spec_delay opts <$> seq attempt m) ∧
         invocations res.2
           = (invocations w + match remaining with O => 0 | S _ => S m end)%nat ∧
         (m < remaining ∨ remaining = 0 ∧ m = 0)%nat.
Proof.
  induction remaining as [|r IH]; intros attempt lastError w Hsum H1 Hinv.
  { exists 0%nat. simpl. rewrite app_nil_r. split; [done|]. split; [lia|]. right. done. }
  cbn [attempts_from invoke].
  destruct (op (invocations w)) as [v|t].
  - exists 0%nat. simpl. rewrite app_nil_r.
    case_bool_decide; (split; [|split; [simpl; lia|left; lia]]);
      unfold sleeps; simpl; by rewrite !omap_app, !app_nil_r.
  - destruct (non_retryable opts (to_Error t)).
    { exists 0%nat. simpl. rewrite app_nil_r. split; [|split; [simpl; lia|left; lia]].
      unfold sleeps; simpl; by rewrite !omap_app, !app_nil_r. }
    case_bool_decide as Hlt.
    + match goal with |- context [attempts_from r op label opts (S attempt) ?l ?w'] =>
        destruct (IH (S attempt) l w') as (m & I1 & I2 & I3) end; [lia|lia|simpl; lia|].
      destruct r as [|r]; [lia|]. exists (S m). cbn zeta. split; [|split].
      * rewrite I1, !sleeps_emit. unfold sleeps at 1. simpl. rewrite omap_app. simpl.
        rewrite !app_nil_r, <- app_assoc. simpl.
        by rewrite (backoff_delay_spec opts attempt H1).
      * rewrite I2. simpl. lia.
      * left. lia.
    + assert (r = 0%nat) as -> by lia. exists 0%nat. simpl. rewrite app_nil_r.
      split; [|split; [simpl; lia|left; lia]].
      unfold sleeps; simpl; by rewrite !omap_app, !app_nil_r.
Qed.

Lemma withRetry_sleeps_prefix (op : operation T) label options :
  let opts := merge_options options in
  let w := (withRetry op label options).2 in
  (invocations w ≤ maxAttempts opts)%nat ∧
  sleeps w = (spec_delay opts <$> seq 1 (invocations w - 1)).
Proof.
  intros opts w. subst w. unfold withRetry. fold opts. clearbody opts.
  destruct (attempts_from_any op label opts (maxAttempts opts) 1 None
              {| invocations := 0; trace := [] |}) as (m & I1 & I2 & I3);
    [lia|lia|done|].
  rewrite I1, I2. change (invocations {| invocations := 0; trace := [] |}) with 0%nat.
  change (sleeps {| invocations := 0; trace := [] |}) with (@nil Z).
  destruct (maxAttempts opts); simpl.
  - destruct I3 as [?|[_ ->]]; [lia|done].
  - rewrite Nat.sub_0_r. split; [lia|done].
Qed.

Lemma attempts_from_schedule (op : operation T) label opts :
  ∀ remaining attempt lastError w,
    (attempt + remaining = S (maxAttempts opts))%nat →
    (1 ≤ attempt)%nat →
    invocations w = (attempt - 1)%nat →
    let res := attempts_from remaining op label opts attempt lastError w in
    ∃ m, invocations res.2
           = (invocations w + match remaining with O => 0 | S _ => S m end)%nat ∧
         actions_of res.2
           = actions_of w ++
             match remaining with
             | O => []
             | S _ => mjoin (round opts <$> seq attempt m) ++ [Invoke (attempt + m - 1)]
             end.
Proof.
  induction remaining as [|r IH]; intros attempt lastError w Hsum H1 Hinv.
  { exists 0%nat. simpl. rewrite app_nil_r. split; [lia|done]. }
  cbn [attempts_from invoke].
  assert (actions_of {| invocations := S (invocations w);
                        trace := trace w ++ [Invoke (invocations w)] |}
          = actions_of w ++ [Invoke (attempt - 1)]) as Hinvoke.
  { unfold actions_of. simpl. rewrite omap_app. simpl. by rewrite Hinv. }
  destruct (op (invocations w)) as [v|t].
  - exists 0%nat. simpl. rewrite Nat.add_0_r.
    case_bool_decide; (split; [simpl; lia|]);
      rewrite ?actions_of_emit, Hinvoke; simpl; by rewrite ?app_nil_r.
  - destruct (non_retryable opts (to_Error t)).
    { exists 0%nat. simpl. rewrite Nat.add_0_r. split; [simpl; lia|].
      by rewrite actions_of_emit, Hinvoke, app_nil_r. }
    case_bool_decide as Hlt.
    + match goal with |- context [attempts_from r op label opts (S attempt) ?l ?w'] =>
        destruct (IH (S attempt) l w') as (m & I1 & I2) end; [lia|lia|simpl; lia|].
      destruct r as [|r]; [lia|]. exists (S m). cbn zeta. split.
      * rewrite I1. simpl. lia.
      * rewrite I2, !actions_of_emit, Hinvoke. simpl.
        rewrite app_nil_r, <- !app_assoc. simpl.
        rewrite (backoff_delay_spec opts attempt H1).
        by replace (attempt + m - 0)%nat with (attempt + S m - 1)%nat by lia.
    + assert (r = 0%nat) as -> by lia. exists 0%nat. simpl.
      rewrite Nat.add_0_r. split; [simpl; lia|].
      by rewrite actions_of_emit, Hinvoke, app_nil_r.
Qed.

Lemma withRetry_schedule (op : operation T) label options :
  let opts := merge_options options in
  let w := (withRetry op label options).2 in
  actions_of w = schedule opts (invocations w).
Proof.
  intros opts w. subst w. unfold withRetry. fold opts. clearbody opts.
  destruct (attempts_from_schedule op label opts (maxAttempts opts) 1 None
              {| invocations := 0; trace := [] |}) as (m & I1 & I2);
    [lia|lia|done|].
  rewrite I1, I2. change (invocations {| invocations := 0; trace := [] |}) with 0%nat.
  change (actions_of {| invocations := 0; trace := [] |}) with (@nil event).
  destruct (maxAttempts opts); simpl; [done|]. by rewrite Nat.sub_0_r.
Qed.
(** X3: whatever the operation does, [withRetry] invokes it at most
    [maxAttempts] times, and its invocations and sleeps alternate:
    invocation, sleep, invocation, and so on up to the last invocation, so
    there is exactly one sleep between two consecutive invocations and none
    before the first or after the last; the k-th sleep is
    [min (baseDelay * backoffFactor ^ (k - 1)) maxDelay], and no sleep
    exceeds [maxDelay]. *)
Theorem withRetry_any_run (op : operation T) label options :
  let opts := merge_options options in
  let w := (withRetry op label options).2 in
  (invocations w ≤ maxAttempts opts)%nat ∧
  actions_of w = schedule opts (invocations w) ∧
  sleeps w =
    ((λ k, Z.min (baseDelay opts * backoffFactor opts ^ (Z.of_nat k - 1)) (maxDelay opts))
       <$> seq 1 (invocations w - 1)) ∧
  Forall (λ ms, ms ≤ maxDelay opts) (sleeps w).
Proof.
  intros opts w. destruct (withRetry_sleeps_prefix op label options) as [H1 H2].
  pose proof (withRetry_schedule op label options) as H3.
  fold opts in H1, H2, H3. fold w in H1, H2, H3.
  split; [done|]. split; [done|]. split; [done|].
  rewrite H2. apply Forall_fmap, Forall_forall. intros k _. simpl.
  apply Z.le_min_r.
Qed.

Lemma attempts_from_null (op : operation T) label opts :
  ∀ remaining attempt lastError w,
    (attempts_from remaining op label opts attempt lastError w).1 = Threw None →
    remaining = 0%nat ∧ lastError = None.
Proof.
  induction remaining as [|r IH]; intros attempt lastError w; simpl.
  { by intros [= ->]. }
  destruct (op (invocations w)) as [v|t]; [done|].
  destruct (non_retryable opts (to_Error t)); [done|].
  case_bool_decide; intros Hnull; apply IH in Hnull as [_ ?]; done.
Qed.

(** X4: for [maxAttempts] a count of attempts, that is a non-negative
    integer: when it is 0 the body of the loop never runs, and [withRetry]
    throws [lastError] while it is still [null], without invoking the
    operation, sleeping or logging; when it is 1 or more the operation is
    invoked at least once and what [withRetry] throws is never [null]. *)
Theorem withRetry_throws_null (op : operation T) label options :
  let opts := merge_options options in
  (maxAttempts opts = 0%nat →
   withRetry op label options = (Threw None, {| invocations := 0; trace := [] |})) ∧
  ((1 ≤ maxAttempts opts)%nat →
   (withRetry op label options).1 ≠ Threw None ∧
   (1 ≤ invocations (withRetry op label options).2)%nat).
Proof.
  intros opts. unfold withRetry. fold opts. clearbody opts. split.
  - by intros ->.
  - intros Hm. split.
    + intros H. apply attempts_from_null in H as [? _]. lia.
    + destruct (attempts_from_schedule op label opts (maxAttempts opts) 1 None
                  {| invocations := 0; trace := [] |}) as (m & I1 & _);
        [lia|lia|done|].
      rewrite I1. destruct (maxAttempts opts); simpl; lia.
Qed.

Lemma spec_delay_mono opts k :
  0 ≤ baseDelay opts → 1 ≤ backoffFactor opts → (1 ≤ k)%nat →
  spec_delay opts k ≤ spec_delay opts (S k).
Proof.
  intros Hb Hf Hk. unfold spec_delay. apply Z.min_le_compat_r.
  apply Z.mul_le_mono_nonneg_l; [done|].
  apply Z.pow_le_mono_r; lia.
Qed.

(** X5: with a non-negative [baseDelay] and a [backoffFactor] of at least
    1, the sleeps of every run never get shorter from one retry to the
    next. *)
Theorem withRetry_sleeps_ascend (op : operation T) label options i d1 d2 :
  let opts := merge_options options in
  0 ≤ baseDelay opts →
  1 ≤ backoffFactor opts →
  sleeps (withRetry op label options).2 !! i = Some d1 →
  sleeps (withRetry op label options).2 !! S i = Some d2 →
  d1 ≤ d2.
Proof.
  intros opts Hb Hf. destruct (withRetry_sleeps_prefix op label options) as [_ ->].
  fold opts. rewrite !list_lookup_fmap.
  intros H1 H2.
  destruct (seq 1 _ !! i) as [k1|] eqn:E1; [|done].
  destruct (seq 1 _ !! S i) as [k2|] eqn:E2; [|done].
  apply lookup_seq in E1 as [-> _]. apply lookup_seq in E2 as [-> _].
  simpl in H1, H2. injection H1 as <-. injection H2 as <-.
  apply (spec_delay_mono opts (S i)); [done|done|lia].
Qed.

End retry_runs.

Section retry_runs_examples.
Import Retry RetrySpec RetryRuns Examples.


Lemma withRetry_succeeds_after_witness :
  (withRetry flaky_twice "Create flow" no_options).1 = Returned 7%nat ∧
  invocations (withRetry flaky_twice "Create flow" no_options).2 = 3%nat ∧
  sleeps (withRetry flaky_twice "Create flow" no_options).2
    = ((λ j, Z.min (1000 * 2 ^ (Z.of_nat j - 1)) 15000) <$> seq 1 2) ∧
  last (trace (withRetry flaky_twice "Create flow" no_options).2)
    = Some (if bool_decide (2 = 0)%nat then Invoke 0
            else Log info ("Create flow" +:+ " succeeded on attempt " +:+ pretty 3%nat)).
Proof.
  apply (withRetry_succeeds_after flaky_twice "Create flow" no_options 2 7%nat).
  - intros j Hj. eexists. split; [|reflexivity].
    unfold rejection, flaky_twice. rewrite bool_decide_eq_true_2 by lia. reflexivity.
  - reflexivity.
  - simpl. lia.
Defined.

Lemma withRetry_sleeps_ascend_witness :
  1000 ≤ 2000.
Proof.
  apply (withRetry_sleeps_ascend always_boom "Create flow" no_options 0 1000 2000).
  - simpl. lia.
  - simpl. lia.
  - reflexivity.
  - reflexivity.
Defined.

End retry_runs_examples.

(** ** Validator, what it accepts *)

Section validator_rules.
Import Types Validator ValidatorSpec ValidatorRules.

Lemma checks_iff d c (ok ok' : Prop) : checks d c ok → (ok ↔ ok') → checks d c ok'.
Proof.
  intros Hc Hiff h Hd. destruct (Hc h Hd) as [D (es & E & I)].
  split; [done|]. exists es. split; [done|]. by rewrite I.
Qed.

Lemma checks_ret d : checks d (ret tt) True.
Proof. intros h Hd. split; [done|]. exists []. by rewrite app_nil_r. Qed.

Lemma checks_push_error d msg : checks d (push_error msg) False.
Proof. intros h Hd. split; [done|]. by exists [msg]. Qed.

Lemma checks_push_warning d msg : checks d (push_warning msg) True.
Proof. intros h Hd. split; [done|]. exists []. by rewrite app_nil_r. Qed.

Lemma checks_when d (b : bool) c ok :
  checks d c ok → checks d (when b c) (b = true → ok).
Proof.
  destruct b; simpl.
  - intros Hc. eapply checks_iff; [done|]. naive_solver.
  - intros _. eapply checks_iff; [apply checks_ret|]. naive_solver.
Qed.

Lemma checks_seq d (c k : M unit) ok1 ok2 :
  checks d c ok1 → checks d k ok2 → checks d (c ;; k) (ok1 ∧ ok2).
Proof.
  intros Hc Hk h Hd. unfold bind. destruct (Hc h Hd) as [D (es1 & E1 & I1)].
  destruct (c h) as [[] h1]. simpl in *.
  destruct (Hk h1 D) as [D' (es2 & E2 & I2)].
  split; [done|]. exists (es1 ++ es2). rewrite E2, E1, app_assoc. split; [done|].
  rewrite <- I1, <- I2. apply app_nil.
Qed.

Lemma checks_read d (k : FlowDefinition → M unit) ok :
  checks d (k d) ok → checks d (bind read k) ok.
Proof. intros Hk h Hd. unfold bind, read. rewrite Hd. by apply Hk. Qed.

Lemma checks_for_of {A} d (l : list A) body (ok : A → Prop) :
  (∀ x, checks d (body x) (ok x)) →
  checks d (for_of l body) (∀ x, x ∈ l → ok x).
Proof.
  intros Hb. induction l as [|x l IH]; simpl.
  - eapply checks_iff; [apply checks_ret|]. set_solver.
  - eapply checks_iff; [by apply checks_seq|]. set_solver.
Qed.

Lemma truthy_string_ne s : JS.truthy_string s = true ↔ s ≠ EmptyString.
Proof. by destruct s. Qed.

Lemma truthy_given o : JS.truthy o = true ↔ given o.
Proof.
  unfold given. destruct o as [s|]; simpl; [|naive_solver].
  rewrite truthy_string_ne. naive_solver.
Qed.

Lemma checks_check_link d id field l validIds :
  checks d (check_link id field l validIds) (∀ t, present l = Some t → t ∈ validIds).
Proof.
  destruct l as [t|]; simpl; [|eapply checks_iff; [apply checks_ret|]; naive_solver].
  eapply checks_iff; [apply checks_when, checks_push_error|].
  destruct (JS.truthy_string t); simpl; [|naive_solver].
  case_bool_decide; naive_solver.
Qed.

Lemma elem_of_present1 l t : t ∈ omap present [l] ↔ present l = Some t.
Proof. rewrite list_elem_of_omap. set_solver. Qed.

Lemma elem_of_present2 l1 l2 t :
  t ∈ omap present [l1; l2] ↔ present l1 = Some t ∨ present l2 = Some t.
Proof. rewrite list_elem_of_omap. set_solver. Qed.

Lemma checks_validateActionLinks d a validIds :
  checks d (validateActionLinks a validIds)
    (∀ t, t ∈ outgoing_links a → t ∈ validIds).
Proof.
  unfold outgoing_links.
  destruct a; cbn [validateActionLinks link_fields].
  1-3: eapply checks_iff; [apply checks_check_link|];
    setoid_rewrite elem_of_present1; done.
  all: eapply checks_iff; [apply checks_seq; apply checks_check_link|];
    setoid_rewrite elem_of_present2; naive_solver.
Qed.

Lemma checks_validateTrigger d : checks d validateTrigger (trigger_ok (trigger d)).
Proof.
  unfold validateTrigger. apply checks_read. unfold trigger_ok.
  destruct (trigger d) as [m|l|t];
    (eapply checks_iff; [apply checks_when, checks_push_error|]);
    rewrite <- ?truthy_given, <- ?truthy_string_ne.
  - destruct (JS.truthy_string _), (JS.truthy _); naive_solver.
  - destruct (JS.truthy_string _), (JS.truthy _); naive_solver.
  - destruct (JS.truthy_string _); naive_solver.
Qed.

Lemma checks_validateReentry d r : checks d (validateReentry r) (reentry_ok r).
Proof.
  unfold validateReentry, reentry_ok. cbv zeta.
  case_bool_decide as Hm; simpl.
  2: { eapply checks_iff; [apply checks_push_error|]. naive_solver. }
  eapply checks_iff.
  { apply checks_when, checks_seq; apply checks_when, checks_push_error. }
  split.
  - intros H. split; [done|]. intros Htb.
    rewrite bool_decide_eq_true_2 in H by done. destruct H as [Hv Hu]; [done|].
    split.
    + destruct (re_value r) as [v|]; [|by destruct Hv].
      exists v. split; [done|]. destruct (v =? 0) eqn:?, (v <=? 0) eqn:?; try lia;
        by destruct Hv.
    + destruct (re_unit r) as [u|]; [|by destruct Hu].
      exists u. split; [done|]. destruct (JS.truthy_string u); [|by destruct Hu].
      simpl in Hu. case_bool_decide; [done|by destruct Hu].
  - intros [_ H] Htb. apply bool_decide_eq_true in Htb.
    destruct (H Htb) as [(v & -> & Hv) (u & -> & Hu)]. split.
    + intros Hb. destruct (v =? 0) eqn:?, (v <=? 0) eqn:?; simpl in Hb; lia.
    + intros Hb. rewrite bool_decide_eq_true_2 in Hb by done.
      assert (JS.truthy_string u = true) as Ht
        by (repeat (apply elem_of_cons in Hu as [->|Hu]; [done|]); by apply elem_of_nil in Hu).
      by rewrite Ht in Hb.
Qed.

(** *** The tally of ids *)

Lemma bump_map id (counts : list (string * nat)) :
  (list_to_map (bump id counts) : gmap string nat)
  = <[id := S (default 0%nat ((list_to_map counts : gmap string nat) !! id))]>
      (list_to_map counts).
Proof.
  induction counts as [|[k c] rest IH]; simpl; [done|].
  case_bool_decide as E; simpl.
  - subst k. by rewrite lookup_insert_eq, insert_insert_eq.
  - rewrite IH, lookup_insert_ne by done. by rewrite insert_insert_ne.
Qed.

Lemma bump_keys_in id (counts : list (string * nat)) k :
  k ∈ (bump id counts).*1 → k = id ∨ k ∈ counts.*1.
Proof.
  induction counts as [|[k' c] rest IH]; simpl; [set_solver|].
  case_bool_decide; simpl; set_solver.
Qed.

Lemma bump_keys id (counts : list (string * nat)) :
  NoDup counts.*1 → NoDup (bump id counts).*1.
Proof.
  induction counts as [|[k c] rest IH]; simpl; intros Hnd.
  - apply NoDup_singleton.
  - apply NoDup_cons in Hnd as [Hk Hnd].
    case_bool_decide as E; simpl; apply NoDup_cons; split; try done; [|by apply IH].
    intros [?|?]%bump_keys_in; [congruence|done].
Qed.

Lemma tally_keys ids : NoDup (tally ids).*1.
Proof.
  unfold tally. induction ids as [|id ids IH] using rev_ind; [constructor|].
  rewrite foldl_snoc. by apply bump_keys.
Qed.

Lemma filter_absent (ids : list string) k :
  k ∉ ids → filter (λ x, x = k) ids = [].
Proof.
  induction ids as [|x ids IH]; intros Hk; [done|].
  rewrite filter_cons_False by set_solver. apply IH. set_solver.
Qed.

Lemma tally_map ids k :
  (list_to_map (tally ids) : gmap string nat) !! k
  = if decide (k ∈ ids) then Some (length (filter (λ x, x = k) ids)) else None.
Proof.
  unfold tally. induction ids as [|id ids IH] using rev_ind.
  - simpl. apply lookup_empty.
  - rewrite foldl_snoc, bump_map, filter_app, length_app.
    destruct (decide (k = id)) as [->|Hne].
    + rewrite lookup_insert_eq, IH.
      destruct (decide (id ∈ ids ++ [id])) as [_|?]; [|set_solver].
      rewrite filter_cons_True by done. rewrite filter_nil. simpl.
      destruct (decide (id ∈ ids)) as [Hin|Hin]; simpl; [f_equal; lia|].
      by rewrite filter_absent.
    + rewrite lookup_insert_ne by done. rewrite IH.
      rewrite filter_cons_False by done. rewrite filter_nil. simpl. rewrite Nat.add_0_r.
      destruct (decide (k ∈ ids)), (decide (k ∈ ids ++ [id])); set_solver.
Qed.

Lemma filter_fmap_length {A} (f : A → string) (l : list A) k :
  length (filter (λ x, x = k) (f <$> l)) = length (filter (λ a, f a = k) l).
Proof.
  induction l as [|a l IH]; [done|]. rewrite fmap_cons.
  destruct (decide (f a = k)).
  - rewrite !filter_cons_True by done. simpl. by rewrite IH.
  - rewrite !filter_cons_False by done. done.
Qed.

Lemma elem_of_tally d k c :
  (k, c) ∈ tally (action_id <$> actions d) ↔
  k ∈ action_id <$> actions d ∧ c = occurrences k d.
Proof.
  unfold occurrences. rewrite <- filter_fmap_length.
  rewrite (elem_of_list_to_map (M := gmap string) (tally _)) by apply tally_keys.
  rewrite tally_map. case_decide; naive_solver.
Qed.

Lemma elem_of_entries (counts : list (string * nat)) e :
  e ∈ entries counts ↔ e ∈ counts ∧ e.1 ∉ prototype_keys.
Proof.
  unfold entries. cbv zeta. rewrite elem_of_app, list_elem_of_fmap.
  setoid_rewrite merge_sort_Permutation. setoid_rewrite list_elem_of_omap.
  rewrite !list_elem_of_filter. unfold index_keyed. split.
  - intros [([n e'] & -> & x & [? ?]%list_elem_of_filter & Hx)|?]; [|naive_solver].
    destruct (array_index x.1); naive_solver.
  - intros [He Hp]. destruct (array_index e.1) as [n|] eqn:E; [left|naive_solver].
    exists (n, e). split; [done|]. exists e. rewrite list_elem_of_filter, E. done.
Qed.

Lemma trim_empty_name s : Validator.trim s ≠ EmptyString → JS.truthy_string s = true.
Proof. by destruct s. Qed.

Lemma checks_body d : checks d validateFlowDefinition_body (accepts d).
Proof.
  unfold validateFlowDefinition_body. apply checks_read.
  eapply checks_iff.
  { apply checks_seq; [apply checks_when, checks_push_error|].
    apply checks_seq; [apply checks_validateTrigger|].
    apply checks_seq; [apply checks_when, checks_push_error|].
    apply checks_seq; [apply checks_when, checks_push_error|].
    apply checks_seq.
    { apply checks_when. cbv zeta.
      apply checks_seq; [apply checks_when, checks_push_error|].
      apply checks_seq.
      - apply checks_for_of with (ok := λ e : string * nat, ¬ (1 < e.2)%nat).
        intros e. eapply checks_iff; [apply checks_when, checks_push_error|].
        case_bool_decide; naive_solver.
      - apply checks_for_of. intros a. apply checks_validateActionLinks. }
    apply checks_seq.
    { instantiate (1 := ∀ st r, settings d = Some st → reentry st = Some r → reentry_ok r).
      destruct (settings d) as [st|];
        [|eapply checks_iff; [apply checks_ret|]; split; [by intros _ ? ? [=]|done]].
      destruct (reentry st) as [r|] eqn:Hr;
        [|eapply checks_iff; [apply checks_ret|]; split; [|done];
          intros _ ? ? [= <-]; congruence].
      eapply checks_iff; [apply checks_validateReentry|]. split.
      - intros H ? ? [= <-]. congruence.
      - intros H. by apply (H st). }
    apply checks_seq.
    { instantiate (1 := True). destruct (profile_filter d); [|apply checks_ret].
      eapply checks_iff; [apply checks_when, checks_push_warning|]. done. }
    instantiate (1 := True). destruct (trigger d) as [t| |]; try apply checks_ret.
    destruct (trigger_filter t); [|apply checks_ret].
    eapply checks_iff; [apply checks_when, checks_push_warning|]. done. }
  assert (actions d ≠ [] ↔ bool_decide (0 < length (actions d))%nat = true) as Hlen.
  { destruct (actions d); split; done. }
  assert (∀ x : string, x ∈ (list_to_set (action_id <$> actions d) : gset string)
                        ↔ x ∈ action_id <$> actions d) as Hset
    by (intros x; apply elem_of_list_to_set).
  split.
  - intros (Hname & Htrig & Hacts & Hentry & Hin & Hre & _ & _).
    assert (actions d ≠ []) as Hne.
    { intros E. apply Hacts. rewrite E. by apply bool_decide_eq_true_2. }
    destruct (Hin (proj1 Hlen Hne)) as (He & Hdup & Hlinks).
    assert (JS.truthy_string (entry_action_id d) = true) as Het.
    { destruct (JS.truthy_string (entry_action_id d)); [done|]. by destruct Hentry. }
    split; try done.
    + intros E. apply Hname. rewrite E. apply orb_true_r.
    + split; [by apply truthy_string_ne|].
      apply Hset. rewrite Het in He. simpl in He.
      destruct (decide (entry_action_id d ∈ (list_to_set (action_id <$> actions d)
                                              : gset string))); [done|].
      destruct He. by rewrite bool_decide_eq_false_2.
    + intros id Hp. apply Nat.nlt_ge. intros Hc.
      destruct (decide (id ∈ action_id <$> actions d)) as [Hi|Hi].
      * apply (Hdup (id, occurrences id d)); [|done].
        apply elem_of_entries. split; [|done]. by apply elem_of_tally.
      * unfold occurrences in Hc. rewrite <- filter_fmap_length in Hc.
        rewrite filter_absent in Hc by done. simpl in Hc. lia.
    + intros a t Ha Ht. apply Hset. by apply (Hlinks a).
  - intros [Hname Htrig Hacts [He1 He2] Hdup Hlinks Hre].
    split; [|split; [done|split; [|split; [|split; [|done]]]]].
    + intros Hb. apply orb_true_iff in Hb as [Hb|Hb].
      * apply trim_empty_name in Hname. by rewrite Hname in Hb.
      * by apply bool_decide_eq_true in Hb.
    + intros Hb%bool_decide_eq_true. by destruct (actions d).
    + intros Hb. apply truthy_string_ne in He1. by rewrite He1 in Hb.
    + intros _. split; [|split].
      * intros Hb. apply andb_true_iff in Hb as [_ Hb].
        apply negb_true_iff, bool_decide_eq_false in Hb. by apply Hb, Hset.
      * intros [k c] [[_ ->]%elem_of_tally Hp]%elem_of_entries. simpl in *.
        specialize (Hdup k Hp). lia.
      * intros a Ha t Ht. apply Hset. by apply (Hlinks a).
Qed.

(** X6: [validateFlowDefinition] returns [valid: true] exactly for the
    flows with a non-blank name, the field its trigger type requires, at
    least one action, a non-empty [entry_action_id] that some action has, no
    id shared by two actions, every non-empty link naming an existing
    action, and re-entry settings that are absent or well formed.  Ids that
    are names of members of [Object.prototype] are exempt from the
    uniqueness check. *)
Theorem validateFlowDefinition_valid_iff d :
  valid (validateFlowDefinition d) = true ↔ accepts d.
Proof.
  unfold validateFlowDefinition, validateFlowDefinition_run. simpl.
  destruct (checks_body d {| definition := d; errors := []; warnings := [] |})
    as [_ (es & E & I)]; [done|].
  rewrite E. simpl. rewrite <- I. split.
  - intros H%bool_decide_eq_true. by destruct es.
  - intros ->. done.
Qed.

(** X7: an id that two or more actions share, and that is not the name
    of a member of [Object.prototype], makes the flow invalid, and the
    errors contain [Duplicate action ID: "<id>" appears <n> times.] with
    [n] the number of actions that have the id. *)
Theorem validateFlowDefinition_duplicate_id d id :
  id ∉ prototype_keys →
  (2 ≤ occurrences id d)%nat →
  valid (validateFlowDefinition d) = false ∧
  ("Duplicate action ID: " +:+ dq +:+ id +:+ dq +:+ " appears "
     +:+ pretty (occurrences id d) +:+ " times.")
    ∈ vr_errors (validateFlowDefinition d).
Proof.
  intros Hp Hc.
  assert (id ∈ action_id <$> actions d) as Hin.
  { destruct (decide (id ∈ action_id <$> actions d)); [done|].
    unfold occurrences in Hc. rewrite <- filter_fmap_length in Hc.
    rewrite filter_absent in Hc by done. simpl in Hc. lia. }
  assert (emits d validateFlowDefinition_body
            (λ e, e = "Duplicate action ID: " +:+ dq +:+ id +:+ dq +:+ " appears "
                      +:+ pretty (occurrences id d) +:+ " times.")) as Hem.
  { pose proof tame_validateActionLinks. pose proof tame_validateTrigger.
    pose proof tame_validateReentry.
    unfold validateFlowDefinition_body. apply emits_read.
    do 4 (apply emits_bind_r; [tame_tac|intros _]).
    apply emits_bind_l; [|intros _; tame_tac].
    rewrite bool_decide_eq_true_2
      by (destruct (actions d); [by apply elem_of_nil in Hin|simpl; lia]).
    apply emits_when. cbv zeta.
    apply emits_bind_r; [tame_tac|intros _].
    apply emits_bind_l; [|intros _; tame_tac].
    apply (emits_for_of _ _ _ _ (id, occurrences id d)); [| |intros y; tame_tac].
    - apply elem_of_entries. split; [|done]. by apply elem_of_tally.
    - simpl. rewrite bool_decide_eq_true_2 by lia. apply emits_when.
      by apply emits_push. }
  destruct (Hem {| definition := d; errors := []; warnings := [] |}) as (e & He & ->);
    [done|].
  unfold validateFlowDefinition, validateFlowDefinition_run. simpl. split; [|done].
  apply bool_decide_eq_false_2. destruct (errors _); [by apply elem_of_nil in He|done].
Qed.

(** *** Warnings *)

Lemma warns_ret d : warns d (ret tt) [].
Proof. intros h Hd. by rewrite app_nil_r. Qed.

Lemma warns_push_error d msg : warns d (push_error msg) [].
Proof. intros h Hd. simpl. by rewrite app_nil_r. Qed.

Lemma warns_push_warning d msg : warns d (push_warning msg) [msg].
Proof. by intros h Hd. Qed.

Lemma warns_when d (b : bool) c ws :
  warns d c ws → warns d (when b c) (if b then ws else []).
Proof. destruct b; [done|]. intros _. apply warns_ret. Qed.

Lemma warns_seq d (c k : M unit) ws1 ws2 :
  warns d c ws1 → warns d k ws2 → warns d (c ;; k) (ws1 ++ ws2).
Proof.
  intros Hc Hk h Hd. unfold bind. destruct (Hc h Hd) as [D E].
  destruct (c h) as [[] h1]. simpl in *. destruct (Hk h1 D) as [D' E'].
  split; [done|]. by rewrite E', E, app_assoc.
Qed.

Lemma warns_silent_seq d (c k : M unit) ws :
  warns d c [] → warns d k ws → warns d (c ;; k) ws.
Proof. intros Hc Hk. by apply (warns_seq d c k [] ws). Qed.

Lemma warns_read d (k : FlowDefinition → M unit) ws :
  warns d (k d) ws → warns d (bind read k) ws.
Proof. intros Hk h Hd. unfold bind, read. rewrite Hd. by apply Hk. Qed.

Lemma warns_when_error d b msg : warns d (when b (push_error msg)) [].
Proof. destruct b; [apply warns_push_error|apply warns_ret]. Qed.

Lemma warns_for_of {A} d (l : list A) body :
  (∀ x, warns d (body x) []) → warns d (for_of l body) [].
Proof.
  intros Hb. induction l as [|x l IH]; simpl; [apply warns_ret|].
  by apply warns_silent_seq.
Qed.

Lemma warns_check_link d id field l validIds :
  warns d (check_link id field l validIds) [].
Proof. destruct l; [apply warns_when_error|apply warns_ret]. Qed.

Lemma warns_validateActionLinks d a validIds :
  warns d (validateActionLinks a validIds) [].
Proof.
  destruct a; simpl; try apply warns_check_link;
    apply warns_silent_seq; apply warns_check_link.
Qed.

Lemma warns_validateTrigger d : warns d validateTrigger [].
Proof.
  unfold validateTrigger. apply warns_read.
  destruct (trigger d); apply warns_when_error.
Qed.

Lemma warns_validateReentry d r : warns d (validateReentry r) [].
Proof.
  unfold validateReentry. cbv zeta.
  destruct (negb _); [apply warns_push_error|].
  destruct (bool_decide _); [|apply warns_ret]. simpl.
  apply warns_silent_seq; apply warns_when_error.
Qed.

Lemma length_zero_nil {A} (l : list A) : bool_decide (length l = 0%nat) = bool_decide (l = []).
Proof. by destruct l. Qed.

(** X8: the warnings of [validateFlowDefinition] are these and no
    others: one when [profile_filter] is set with no condition group, then
    one when a metric trigger's [trigger_filter] is set with no condition
    group.  They come whatever errors the flow has, and they are not
    errors: [valid] is decided by the errors alone. *)
Theorem validateFlowDefinition_warnings d :
  vr_warnings (validateFlowDefinition d) = filter_warnings d ∧
  (valid (validateFlowDefinition d) = true ↔ vr_errors (validateFlowDefinition d) = []).
Proof.
  split; [|unfold validateFlowDefinition, validateFlowDefinition_run; simpl;
           rewrite bool_decide_eq_true; apply length_zero_iff_nil].
  assert (warns d validateFlowDefinition_body (filter_warnings d)) as H.
  { unfold validateFlowDefinition_body, filter_warnings. apply warns_read.
    apply warns_silent_seq; [apply warns_when_error|].
    apply warns_silent_seq; [apply warns_validateTrigger|].
    apply warns_silent_seq; [apply warns_when_error|].
    apply warns_silent_seq; [apply warns_when_error|].
    apply warns_silent_seq.
    { destruct (bool_decide _); [|apply warns_ret]. simpl.
      apply warns_silent_seq; [apply warns_when_error|].
      apply warns_silent_seq; apply warns_for_of.
      - intros e. apply warns_when_error.
      - intros a. apply warns_validateActionLinks. }
    apply warns_silent_seq.
    { destruct (settings d) as [st|]; [|apply warns_ret].
      destruct (reentry st); [apply warns_validateReentry|apply warns_ret]. }
    apply warns_seq.
    - destruct (profile_filter d) as [pf|]; [|apply warns_ret].
      rewrite length_zero_nil. apply warns_when, warns_push_warning.
    - destruct (trigger d) as [t| |]; try apply warns_ret.
      destruct (trigger_filter t) as [tf|]; [|apply warns_ret].
      rewrite length_zero_nil. apply warns_when, warns_push_warning. }
  unfold validateFlowDefinition, validateFlowDefinition_run. simpl.
  by destruct (H {| definition := d; errors := []; warnings := [] |}) as [_ ->].
Qed.

End validator_rules.

Section validator_rules_examples.
Import Types Validator ValidatorRules Examples.

(** A name of Unicode white space only is blank for [trim], and the flow
    is refused. *)
Lemma validateFlowDefinition_wide_blank_name :
  trim wide_blank = EmptyString ∧
  validateFlowDefinition blank_named_flow
  = {| valid := false; vr_errors := ["Flow name is required."]; vr_warnings := [] |}.
Proof. split; vm_compute; reflexivity. Qed.

Lemma validateFlowDefinition_duplicate_id_witness :
  valid (validateFlowDefinition twin_flow) = false ∧
  ("Duplicate action ID: " +:+ dq +:+ "A" +:+ dq +:+ " appears "
     +:+ pretty (occurrences "A" twin_flow) +:+ " times.")
    ∈ vr_errors (validateFlowDefinition twin_flow).
Proof.
  apply (validateFlowDefinition_duplicate_id twin_flow "A").
  - apply (bool_decide_unpack _). vm_compute. exact I.
  - vm_compute. lia.
Defined.

End validator_rules_examples.

(** ** Traversal, any flow *)

Section traversal_any.
Import Types BrowserFlowBuilder Walk.

Lemma build_actionMap_None acts i :
  build_actionMap acts !! i = None ↔ i ∉ action_id <$> acts.
Proof.
  induction acts as [|b acts IH] using rev_ind.
  - unfold build_actionMap. simpl. rewrite lookup_empty. set_solver.
  - rewrite build_actionMap_snoc, fmap_app, lookup_insert. simpl.
    case_decide as E; [set_solver|]. rewrite IH. set_solver.
Qed.

Lemma build_actionMap_Some acts a :
  a ∈ acts → ∃ a', build_actionMap acts !! action_id a = Some a'.
Proof.
  intros Ha. destruct (build_actionMap acts !! action_id a) as [a'|] eqn:E; [eauto|].
  apply build_actionMap_None in E. destruct E. apply list_elem_of_fmap. eauto.
Qed.

Lemma filter_all {A} (P : A → Prop) `{∀ x, Decision (P x)} (l : list A) :
  (∀ x, x ∈ l → P x) → filter P l = l.
Proof.
  induction l as [|x l IH]; intros Hl; [done|].
  rewrite filter_cons_True by set_solver. f_equal. apply IH. set_solver.
Qed.

(** X9: for every flow, also one with ids that repeat or links that lead
    nowhere, [getActionSequence] returns; every element of its result is
    an action of the flow, the result is no longer than the list of
    actions, and every id that occurs in the flow occurs in the result. *)
Theorem getActionSequence_any_flow d :
  ∃ out, getActionSequence d = Some out ∧
         (∀ a, a ∈ out → a ∈ actions d) ∧
         (length out ≤ length (actions d))%nat ∧
         (∀ a, a ∈ actions d → action_id a ∈ action_id <$> out).
Proof.
  destruct (getActionSequence_walked d) as (w & E & W).
  destruct (walked_new _ _ _ _ W) as (new & O & D & N). simpl in O. subst new.
  eexists. split; [exact E|]. unfold unvisited. split; [|split].
  - intros a [Ha|Ha]%elem_of_app.
    + apply N in Ha as (Ha & _). by apply build_actionMap_lookup in Ha as [? _].
    + by apply list_elem_of_filter in Ha as [_ ?].
  - rewrite length_app.
    assert (length (ordered w)
            ≤ length (filter (λ a, ¬ (action_id a ∉ visited w)) (actions d)))%nat as H1.
    { apply submseteq_length, NoDup_submseteq; [by eapply NoDup_fmap_1|].
      intros a Ha. apply N in Ha as (Ha & Hv & _).
      apply build_actionMap_lookup in Ha as [? _]. apply list_elem_of_filter. tauto. }
    pose proof (Permutation_length
                  (filter_app_complement (λ a, action_id a ∉ visited w) (actions d))) as H2.
    rewrite length_app in H2. lia.
  - intros a Ha. rewrite fmap_app, elem_of_app.
    destruct (decide (action_id a ∈ visited w)) as [Hv|Hv].
    + left. destruct (build_actionMap_Some _ _ Ha) as [a' Ha'].
      pose proof (build_actionMap_lookup _ _ _ Ha') as [_ Hid].
      apply list_elem_of_fmap. exists a'. split; [done|].
      apply N. rewrite Hid. split; [done|]. split; [done|]. simpl. set_solver.
    + right. apply list_elem_of_fmap. exists a. split; [done|].
      by apply list_elem_of_filter.
Qed.

(** The walk only ever adds to [ordered]. *)
Lemma traverse_ordered_prefix m fuel : ∀ id w w',
  traverse fuel m id w = Some w' → ordered w `prefix_of` ordered w'.
Proof.
  induction fuel as [|fuel IH]; intros id w w'; [done|].
  assert (∀ ls w1 w2, traverse_links fuel m ls w1 = Some w2 →
                      ordered w1 `prefix_of` ordered w2) as IHl.
  { induction ls as [|l ls IHls]; intros w1 w2; simpl; [by intros [= ->]|].
    destruct (traverse fuel m l w1) as [w3|] eqn:E; [|done]. simpl.
    intros H. etrans; [by eapply IH|by apply IHls]. }
  destruct id as [i|]; [|by intros [= ->]].
  destruct (JS.truthy_string i) eqn:Ht; [|by simpl; rewrite Ht; intros [= ->]].
  destruct (decide (i ∈ visited w)) as [Hv|Hv].
  { simpl. rewrite Ht. simpl. rewrite bool_decide_eq_true_2 by done. by intros [= ->]. }
  destruct (m !! i) as [a|] eqn:Hm.
  - rewrite (traverse_enter m fuel i a w) by done. intros H%IHl. simpl in H.
    etrans; [|exact H]. by apply prefix_app_r.
  - simpl. rewrite Ht, Hm. simpl. rewrite bool_decide_eq_false_2 by done.
    by intros [= <-].
Qed.

Lemma traverse_first m fuel i a w w' :
  JS.truthy_string i = true → i ∉ visited w → m !! i = Some a →
  traverse fuel m (Some i) w = Some w' →
  ∃ rest, ordered w' = ordered w ++ a :: rest.
Proof.
  intros Ht Hv Hm. destruct fuel as [|fuel]; [done|].
  rewrite (traverse_enter m fuel i a w) by done.
  assert (∀ ls w1 w2, traverse_links fuel m ls w1 = Some w2 →
                      ordered w1 `prefix_of` ordered w2) as IHl.
  { induction ls as [|l ls IHls]; intros w1 w2; simpl; [by intros [= ->]|].
    destruct (traverse fuel m l w1) as [w3|] eqn:E; [|done]. simpl.
    intros H. etrans; [by eapply traverse_ordered_prefix|by apply IHls]. }
  intros [rest Hrest]%IHl. simpl in Hrest. exists rest.
  by rewrite Hrest, <- app_assoc.
Qed.

Lemma getActionSequence_head d :
  entry_action_id d ≠ EmptyString →
  entry_action_id d ∈ action_id <$> actions d →
  ∃ a rest, getActionSequence d = Some (a :: rest) ∧
            a ∈ actions d ∧ action_id a = entry_action_id d.
Proof.
  intros Hne Hin.
  destruct (build_actionMap (actions d) !! entry_action_id d) as [a|] eqn:Hm;
    [|by apply build_actionMap_None in Hm].
  pose proof (build_actionMap_lookup _ _ _ Hm) as [Ha Hid].
  destruct (getActionSequence_walked d) as (w & E & _). rewrite E.
  unfold getActionSequence in E.
  destruct (traverse _ _ _ _) as [w'|] eqn:Ew; [|done]. simpl in E.
  destruct (traverse_first _ _ _ a _ _ (proj2 (truthy_string_ne _) Hne)
              (not_elem_of_empty _) Hm Ew) as [rest Hrest].
  simpl in Hrest. exists a, (rest ++ unvisited (actions d) (visited w')).
  split; [|done]. injection E as <-. by rewrite Hrest.
Qed.

(** X10: when [entry_action_id] is not empty and some action has it as
    its id, the build order starts with an action of that id, whatever the
    order of the definition is. *)
Theorem getActionSequence_entry_first d :
  entry_action_id d ≠ EmptyString →
  entry_action_id d ∈ action_id <$> actions d →
  ∃ a rest, getActionSequence d = Some (a :: rest) ∧
            a ∈ actions d ∧ action_id a = entry_action_id d.
Proof. apply getActionSequence_head. Qed.

(** X11: when [entry_action_id] is empty or is the id of no action,
    nothing is walked and the build order is the definition order. *)
Theorem getActionSequence_no_entry d :
  entry_action_id d = EmptyString ∨ entry_action_id d ∉ action_id <$> actions d →
  getActionSequence d = Some (actions d).
Proof.
  intros H. unfold getActionSequence. simpl.
  destruct (JS.truthy_string (entry_action_id d)) eqn:Ht; simpl.
  - destruct H as [H|H]; [by rewrite H in Ht|].
    rewrite bool_decide_eq_false_2 by set_solver.
    rewrite (proj2 (build_actionMap_None _ _) H). simpl. f_equal.
    apply filter_all. intros a Ha Hv.
    assert (action_id a = entry_action_id d) as E by set_solver.
    apply H. rewrite <- E. apply list_elem_of_fmap. eauto.
  - f_equal. apply filter_all. set_solver.
Qed.

End traversal_any.

Section traversal_any_examples.
Import Types BrowserFlowBuilder Examples.

Lemma getActionSequence_entry_first_witness :
  ∃ a rest, getActionSequence island_flow = Some (a :: rest) ∧
            a ∈ actions island_flow ∧ action_id a = entry_action_id island_flow.
Proof.
  apply (getActionSequence_entry_first island_flow).
  - discriminate.
  - apply (bool_decide_unpack _). vm_compute. exact I.
Defined.

Lemma getActionSequence_no_entry_witness :
  getActionSequence stray_entry_flow = Some (actions stray_entry_flow).
Proof.
  apply (getActionSequence_no_entry stray_entry_flow).
  right. apply (bool_decide_unpack _). vm_compute. exact I.
Defined.

End traversal_any_examples.

(** ** A validated flow, through the builders *)

Section validated_flows.
Import Types JS Validator ValidatorRules BrowserFlowBuilder Walk APIFlowCreator
  PayloadGraph.

Lemma valid_accepts d : valid (validateFlowDefinition d) = true → accepts d.
Proof.
  unfold validateFlowDefinition, validateFlowDefinition_run. simpl.
  destruct (checks_body d {| definition := d; errors := []; warnings := [] |})
    as [_ (es & E & I)]; [done|].
  rewrite E. simpl. intros H%bool_decide_eq_true. apply I. by destruct es.
Qed.

Lemma once_NoDup (l : list string) :
  (∀ k, length (filter (λ x, x = k) l) ≤ 1)%nat → NoDup l.
Proof.
  induction l as [|x l IH]; intros H; [constructor|].
  constructor.
  - pose proof (H x) as Hx. rewrite filter_cons_True in Hx by done. simpl in Hx.
    destruct (filter (λ y, y = x) l) as [|y ?] eqn:E; [|simpl in Hx; lia].
    by apply (filter_nil_not_elem_of _ _ x E).
  - apply IH. intros k. specialize (H k).
    destruct (decide (x = k)).
    + rewrite filter_cons_True in H by done. simpl in H. lia.
    + by rewrite filter_cons_False in H.
Qed.

Lemma accepts_NoDup d :
  accepts d →
  (∀ a, a ∈ actions d → action_id a ∉ prototype_keys) →
  NoDup (action_id <$> actions d).
Proof.
  intros Hacc Hp. apply once_NoDup. intros k. rewrite filter_fmap_length.
  destruct (decide (k ∈ prototype_keys)) as [Hk|Hk]; [|by apply (acc_unique d Hacc)].
  rewrite (proj2 (length_zero_iff_nil _)); [lia|].
  assert (∀ l : list FlowAction, (∀ a, a ∈ l → action_id a ≠ k) →
            filter (λ a, action_id a = k) l = []) as Hnil.
  { induction l as [|a l IH]; intros Hl; [done|].
    rewrite filter_cons_False by set_solver. apply IH. set_solver. }
  apply Hnil. intros a Ha E. apply (Hp a Ha). by rewrite E.
Qed.

Lemma getActionSequence_permutation d :
  NoDup (action_id <$> actions d) →
  ∃ out, getActionSequence d = Some out ∧ out ≡ₚ actions d.
Proof.
  intros Hnd. destruct (getActionSequence_split d Hnd) as (w & E & D & N & _).
  eexists. split; [exact E|].
  apply NoDup_Permutation.
  - apply NoDup_app. split; [by eapply NoDup_fmap_1|]. split.
    + intros a Ha. apply N in Ha as [_ Hv]. unfold unvisited.
      rewrite list_elem_of_filter. tauto.
    + apply NoDup_filter. by eapply NoDup_fmap_1.
  - by eapply NoDup_fmap_1.
  - intros a. unfold unvisited. rewrite elem_of_app, N, list_elem_of_filter.
    destruct (decide (action_id a ∈ visited w)); tauto.
Qed.

(** X12: a flow that [validateFlowDefinition] finds valid, with no id
    that is the name of a member of [Object.prototype], has a build order
    that starts with the entry action and contains every action of the flow
    exactly once. *)
Theorem valid_flow_build_order d :
  valid (validateFlowDefinition d) = true →
  (∀ a, a ∈ actions d → action_id a ∉ prototype_keys) →
  ∃ a rest, getActionSequence d = Some (a :: rest) ∧
            action_id a = entry_action_id d ∧
            a :: rest ≡ₚ actions d.
Proof.
  intros Hv%valid_accepts Hp.
  destruct (getActionSequence_permutation d (accepts_NoDup d Hv Hp)) as (out & E & HP).
  destruct (acc_entry d Hv) as [He Hin].
  destruct (getActionSequence_head d He Hin) as (a & rest & E' & _ & Hid).
  exists a, rest. split; [done|]. split; [done|]. congruence.
Qed.

Lemma transformAction_graph self a settings templateIds act :
  transformAction self a settings templateIds = inr act →
  temporary_id act = action_id a ∧
  type act = action_type a ∧
  link_targets (links act) = outgoing_links a.
Proof.
  unfold link_targets, outgoing_links.
  destruct a as [a|a|a|a|a]; intros [= <-]; simpl; repeat split.
  1-3: by match goal with |- context [or_null ?l] =>
            destruct l as [s|]; simpl; [destruct (truthy_string s)|] end.
  destruct (next_if_true a) as [s|], (next_if_false a) as [s'|]; simpl;
    repeat match goal with |- context [truthy_string ?s] =>
             destruct (truthy_string s); simpl end; done.
Qed.

(** X13: an action that the REST compiler accepts keeps its id, its type
    and its links: the link targets of the compiled action are the
    non-empty links of the action, in the same order. *)
Theorem transformAction_keeps_links self a settings templateIds act :
  transformAction self a settings templateIds = inr act →
  temporary_id act = action_id a ∧
  type act = action_type a ∧
  link_targets (links act) = outgoing_links a.
Proof. apply transformAction_graph. Qed.

Lemma transformActions_links self acts settings templateIds out :
  transformActions self acts settings templateIds = inr out →
  temporary_id <$> out = action_id <$> acts ∧
  ∀ act t, act ∈ out → t ∈ link_targets (links act) →
           ∃ a, a ∈ acts ∧ t ∈ outgoing_links a.
Proof.
  unfold transformActions. revert out.
  induction acts as [|a acts IH]; intros out; simpl.
  - intros [= <-]. split; [done|]. intros ? ? H. by apply elem_of_nil in H.
  - destruct (transformAction self a settings templateIds) as [e|act0] eqn:E; [done|].
    destruct (map_throwing _ acts) as [e|out0]; [done|]. intros [= <-].
    destruct (IH out0 eq_refl) as [Hids Hl].
    destruct (transformAction_graph _ _ _ _ _ E) as (Hid & _ & Hk).
    split; [rewrite !fmap_cons; by f_equal|].
    intros act t [->|Hact]%elem_of_cons Ht.
    + exists a. rewrite <- Hk. set_solver.
    + destruct (Hl act t Hact Ht) as (a' & ? & ?). exists a'. set_solver.
Qed.

(** X14: a flow that [validateFlowDefinition] finds valid and that has
    no A/B split compiles to a payload, and in that payload the entry id
    and every link name an action of the payload. *)
Theorem valid_flow_payload self d trigger templates :
  valid (validateFlowDefinition d) = true →
  (∀ ab, ABSplit ab ∉ actions d) →
  ∃ p, buildFlow_payload self d trigger templates = inr p ∧ closed_payload p.
Proof.
  intros Hv%valid_accepts Hno. unfold buildFlow_payload.
  pose proof (transformActions_cases self (actions d) (settings d) (Some templates)) as H.
  destruct (transformActions _ _ _ _) as [e|acts] eqn:E.
  { destruct H as [_ [ab Hab]]. by destruct (Hno ab). }
  eexists. split; [done|].
  destruct (transformActions_links _ _ _ _ _ E) as [Hids Hl].
  unfold closed_payload, definition_of. simpl. rewrite Hids. split.
  - apply (acc_entry d Hv).
  - intros act t Hact Ht. destruct (Hl act t Hact Ht) as (a & Ha & Hta).
    by apply (acc_links d Hv a).
Qed.

End validated_flows.

Section validated_flows_examples.
Import Types JS Validator ValidatorRules BrowserFlowBuilder APIFlowCreator
  PayloadGraph Examples.

Lemma valid_flow_build_order_witness :
  ∃ a rest, getActionSequence island_flow = Some (a :: rest) ∧
            action_id a = "a" ∧
            a :: rest ≡ₚ actions island_flow.
Proof.
  apply (valid_flow_build_order island_flow).
  - vm_compute. reflexivity.
  - apply Forall_forall. repeat constructor; apply (bool_decide_unpack _);
      vm_compute; exact I.
Defined.

Lemma transformAction_keeps_links_witness :
  ∃ act, transformAction (new_creator "owner@example.com")
           (delay "a" (Some "b")) None None = inr act ∧
         temporary_id act = "a" ∧ type act = "time-delay" ∧
         link_targets (links act) = ["b"].
Proof.
  eexists. split; [reflexivity|].
  apply (transformAction_keeps_links (new_creator "owner@example.com")
           (delay "a" (Some "b")) None None).
  reflexivity.
Defined.

Lemma valid_flow_payload_witness :
  ∃ p, buildFlow_payload (new_creator "owner@example.com") cycle_flow
         metric_trigger ∅ = inr p ∧ closed_payload p.
Proof.
  apply (valid_flow_payload (new_creator "owner@example.com") cycle_flow
           metric_trigger ∅).
  - vm_compute. reflexivity.
  - intros ab Hab. vm_compute in Hab.
    repeat (apply elem_of_cons in Hab as [Hab|Hab]; [discriminate|]).
    by apply elem_of_nil in Hab.
Defined.

End validated_flows_examples.

(** ** The e-mail helpers *)

Section email_helpers.
Import JS EmailBuilder EmailSpec.

Lemma append_cons x (a b : string) : String x a +:+ b = String x (a +:+ b).
Proof. reflexivity. Qed.

Lemma append_nil (b : string) : EmptyString +:+ b = b.
Proof. reflexivity. Qed.

Lemma append_assoc (a b c : string) : (a +:+ b) +:+ c = a +:+ (b +:+ c).
Proof.
  induction a as [|x a IH]; [done|]. by rewrite !append_cons, IH.
Qed.

Lemma replace_all_app c r a b :
  replace_all c r (a +:+ b) = replace_all c r a +:+ replace_all c r b.
Proof.
  induction a as [|x a IH]; [done|].
  rewrite append_cons. simpl. rewrite IH.
  destruct (bool_decide (x = c)); [|done].
  symmetry. apply append_assoc.
Qed.

Lemma escapeHtml_app a b : escapeHtml (a +:+ b) = escapeHtml a +:+ escapeHtml b.
Proof. unfold escapeHtml. by rewrite !replace_all_app. Qed.

Lemma escapeHtml_char c : escapeHtml (String c EmptyString) = entity c.
Proof.
  unfold entity.
  repeat (case_bool_decide; [by subst|]).
  unfold escapeHtml. simpl.
  repeat (rewrite bool_decide_false by done; simpl). done.
Qed.

Lemma escapeHtml_cons c str :
  escapeHtml (String c str) = entity c +:+ escapeHtml str.
Proof.
  change (String c str) with (String c EmptyString +:+ str).
  by rewrite escapeHtml_app, escapeHtml_char.
Qed.

Lemma chars_app a b : chars (a +:+ b) = chars a ++ chars b.
Proof.
  induction a as [|x a IH]; [done|]. rewrite append_cons. simpl. by rewrite IH.
Qed.

Lemma entity_no_markup c x : x ∈ markup → x ∉ chars (entity c).
Proof.
  unfold entity, markup. intros Hx.
  repeat (case_bool_decide;
          [clear -Hx; simpl;
           repeat (apply elem_of_cons in Hx as [->|Hx];
                   [intros E; repeat (apply elem_of_cons in E as [E|E]; [discriminate|]);
                    by apply elem_of_nil in E|]);
           by apply elem_of_nil in Hx|]).
  simpl. intros ->%list_elem_of_singleton.
  repeat (apply elem_of_cons in Hx as [->|Hx]; [done|]).
  by apply elem_of_nil in Hx.
Qed.

(** X15: [escapeHtml] replaces every character by its entity in one
    pass: the five replacements in a row never escape the [&] of an entity
    that an earlier one wrote. *)
Theorem escapeHtml_one_pass str : escapeHtml str = escape_each str.
Proof.
  induction str as [|c str IH]; [done|].
  rewrite escapeHtml_cons, IH. done.
Qed.

(** X16: the result of [escapeHtml] contains no [<], [>], double quote
    or single quote. *)
Theorem escapeHtml_no_markup str x :
  x ∈ markup → x ∉ chars (escapeHtml str).
Proof.
  intros Hx.
  induction str as [|c str IH]; [by intros ?%elem_of_nil|].
  rewrite escapeHtml_cons, chars_app, elem_of_app. intros [H|H]; [|done].
  by apply (entity_no_markup c x).
Qed.

Lemma replace_all_absent c r str :
  c ∉ chars str → replace_all c r str = str.
Proof.
  induction str as [|x str IH]; simpl; [done|].
  intros H. rewrite bool_decide_false by set_solver. f_equal. apply IH. set_solver.
Qed.

(** X17: the result of [escapeAttr] contains no double quote, and a
    string without a double quote is returned as it is: the [&] of a URL
    is kept. *)
Theorem escapeAttr_quotes str :
  ("034"%char ∉ chars (escapeAttr str)) ∧
  ("034"%char ∉ chars str → escapeAttr str = str).
Proof.
  unfold escapeAttr. split; [|apply replace_all_absent].
  induction str as [|x str IH]; simpl; [by intros ?%elem_of_nil|].
  case_bool_decide as E.
  - rewrite chars_app, elem_of_app. intros [H|H]; [|done].
    simpl in H. repeat (apply elem_of_cons in H as [H|H]; [discriminate|]).
    by apply elem_of_nil in H.
  - simpl. intros [H|H]%elem_of_cons; [congruence|done].
Qed.

Lemma extractImageSources_fold (l : list EmailSection) acc :
  let step := λ acc section,
    match section with
    | Image s =>
        if isLocalFile (src s)
        then {| local := local acc ++ [src s]; remote := remote acc |}
        else {| local := local acc; remote := remote acc ++ [src s] |}
    | _ => acc
    end in
  let srcs := image_srcs {| sections := l; background_color := None; width := None |} in
  local (foldl step acc l) = local acc ++ filter (λ s, isLocalFile s = true) srcs ∧
  remote (foldl step acc l) = remote acc ++ filter (λ s, isLocalFile s ≠ true) srcs.
Proof.
  simpl. unfold image_srcs. simpl. revert acc.
  induction l as [|section l IH]; intros acc; simpl.
  - by rewrite !app_nil_r.
  - destruct section as [s|s|s|s]; simpl; try apply IH.
    destruct (IH (if isLocalFile (src s)
                  then {| local := local acc ++ [src s]; remote := remote acc |}
                  else {| local := local acc; remote := remote acc ++ [src s] |}))
      as [-> ->].
    destruct (isLocalFile (src s)) eqn:E; simpl.
    + rewrite filter_cons_True by done. rewrite filter_cons_False by (intros H; by apply H).
      by rewrite <- app_assoc.
    + rewrite filter_cons_False by (rewrite E; done).
      rewrite filter_cons_True by (rewrite E; done).
      by rewrite <- app_assoc.
Qed.

(** X18: [extractImageSources] splits the sources of the image sections
    in two, each part in the order of the sections: [local] holds those
    for which [isLocalFile] holds, [remote] the others; sections of any
    other type add nothing. *)
Theorem extractImageSources_split content :
  local (extractImageSources content)
    = filter (λ s, isLocalFile s = true) (image_srcs content) ∧
  remote (extractImageSources content)
    = filter (λ s, isLocalFile s ≠ true) (image_srcs content).
Proof.
  unfold extractImageSources.
  destruct (extractImageSources_fold (sections content) {| local := []; remote := [] |})
    as [H1 H2].
  simpl in H1, H2. unfold image_srcs in *. simpl in *. by rewrite H1, H2.
Qed.

End email_helpers.

Section email_helpers_examples.
Import JS EmailBuilder EmailSpec.

Lemma escapeHtml_no_markup_witness :
  "<"%char ∉ chars (escapeHtml "<a href='x'>R&D</a>").
Proof.
  apply (escapeHtml_no_markup "<a href='x'>R&D</a>" "<"%char).
  apply (bool_decide_unpack _). vm_compute. exact I.
Defined.

End email_helpers_examples.

(** ** The configuration check *)

Section config_check.
Import JS Config ConfigSpec.

(** X19: [validateConfig] reports nothing exactly when the mode's
    credentials are there: the API key for [api] and [hybrid], the e-mail
    address and the password for [browser] and [hybrid].  What the other
    mode needs is never asked for. *)
Theorem validateConfig_empty_iff config :
  validateConfig config = [] ↔
  (needs_api_key (mode config) → apiKey config ≠ EmptyString) ∧
  (needs_login (mode config) →
   email config ≠ EmptyString ∧ password config ≠ EmptyString).
Proof.
  unfold validateConfig, needs_api_key, needs_login.
  destruct (mode config), (apiKey config), (email config), (password config);
    simpl; split; try done; try (intros _; split; intros [|]; done);
    try (intros [H1 H2]; exfalso;
         first [ by apply H1; auto
               | by destruct H2 as [? ?]; auto ]).
Qed.

End config_check.

(** ** The settings overrides of the web UI *)

Section settings_overrides.
Import Types JS Validator ValidatorRules BrowserFlowBuilder APIFlowCreator Compile
  Server ServerSpec.

Lemma overridden_id o a : action_id (overridden o a) = action_id a.
Proof.
  unfold overridden. destruct (action_overrides o) as [t|]; [|done].
  destruct a as [a|a|a|a|a]; simpl; try done.
  - by destruct (t !! se_id a).
  - by destruct (t !! sms_id a).
Qed.

Lemma overridden_type o a : action_type (overridden o a) = action_type a.
Proof.
  unfold overridden. destruct (action_overrides o) as [t|]; [|done].
  destruct a as [a|a|a|a|a]; simpl; try done.
  - by destruct (t !! se_id a).
  - by destruct (t !! sms_id a).
Qed.

Lemma overridden_links o a : link_fields (overridden o a) = link_fields a.
Proof.
  unfold overridden. destruct (action_overrides o) as [t|]; [|done].
  destruct a as [a|a|a|a|a]; simpl; try done.
  - by destruct (t !! se_id a).
  - by destruct (t !! sms_id a).
Qed.

Lemma applySettingsOverrides_actions d o :
  actions (applySettingsOverrides d o) = overridden o <$> actions d.
Proof.
  unfold applySettingsOverrides, overridden. simpl.
  destruct (action_overrides o); [done|]. by rewrite list_fmap_id.
Qed.

Lemma assign_assign {A} (v t : option A) : assign v (assign v t) = assign v t.
Proof. by destruct v. Qed.

Lemma overridden_idemp o a : overridden o (overridden o a) = overridden o a.
Proof.
  unfold overridden. destruct (action_overrides o) as [t|]; [|done].
  destruct a as [a|a|a|a|a]; simpl; try done.
  - destruct (t !! se_id a) as [ov|] eqn:E; simpl; rewrite E; [|done].
    by rewrite !assign_assign.
  - destruct (t !! sms_id a) as [ov|] eqn:E; simpl; rewrite E; [|done].
    by rewrite !assign_assign.
Qed.

Lemma FlowDefinition_eq d1 d2 :
  name d1 = name d2 → trigger d1 = trigger d2 → actions d1 = actions d2 →
  entry_action_id d1 = entry_action_id d2 → profile_filter d1 = profile_filter d2 →
  settings d1 = settings d2 → tags d1 = tags d2 → d1 = d2.
Proof. destruct d1, d2; simpl; intros; by subst. Qed.

(** X20: applying the same overrides a second time changes nothing. *)
Theorem applySettingsOverrides_idempotent d o :
  applySettingsOverrides (applySettingsOverrides d o) o = applySettingsOverrides d o.
Proof.
  apply FlowDefinition_eq; try done.
  - simpl. unfold override_trigger_filter.
    destruct (trigger d) as [m|l|t]; try done.
    by destruct (trigger_filter_enabled o) as [[|]|].
  - rewrite (applySettingsOverrides_actions (applySettingsOverrides d o)).
    rewrite (applySettingsOverrides_actions d), <- list_fmap_compose.
    apply list_fmap_ext. intros _ a _. apply overridden_idemp.
  - simpl. unfold override_profile_filter.
    by destruct (profile_filter_enabled o) as [[|]|].
  - simpl. f_equal.
    unfold override_reentry, override_flow_settings. simpl.
    destruct (reentry_mode o) as [m|]; simpl.
    + destruct (truthy_string m && negb (bool_decide (m = "none"))); simpl.
      { by rewrite !assign_assign. }
      destruct (bool_decide (m = "none")); simpl; by rewrite !assign_assign.
    + by rewrite !assign_assign.
Qed.

Lemma build_actionMap_overridden o acts :
  build_actionMap (overridden o <$> acts) = overridden o <$> build_actionMap acts.
Proof.
  unfold build_actionMap.
  assert (∀ m : gmap string FlowAction,
            foldl (λ m a, <[action_id a := a]> m) (overridden o <$> m)
              (overridden o <$> acts)
            = overridden o <$> foldl (λ m a, <[action_id a := a]> m) m acts) as H.
  { induction acts as [|a acts IH]; intros m; simpl; [done|].
    rewrite <- IH. by rewrite fmap_insert, overridden_id. }
  rewrite <- H. by rewrite fmap_empty.
Qed.

Lemma overridden_cases o action :
  match action with
  | TimeDelay _ | ConditionalSplit _ | ABSplit _ => overridden o action = action
  | SendEmail a => ∃ a', overridden o action = SendEmail a' ∧ se_next a' = se_next a
  | SendSms a => ∃ a', overridden o action = SendSms a' ∧ sms_next a' = sms_next a
  end.
Proof.
  unfold overridden. destruct (action_overrides o) as [t|].
  - destruct action as [a|a|a|a|a]; simpl; try done.
    + destruct (t !! se_id a); eauto.
    + destruct (t !! sms_id a); eauto.
  - destruct action; eauto.
Qed.

Lemma traverse_overridden o fuel m id w :
  traverse fuel (overridden o <$> m) id
    {| ordered := overridden o <$> ordered w; visited := visited w |}
  = (λ w', {| ordered := overridden o <$> ordered w'; visited := visited w' |})
      <$> traverse fuel m id w.
Proof.
  revert id w. induction fuel as [|fuel IH]; intros id w; [done|].
  simpl. destruct id as [i|]; [|done].
  destruct (negb (truthy_string i) || bool_decide (i ∈ visited w)); [done|].
  rewrite lookup_fmap. destruct (m !! i) as [action|]; simpl; [|done].
  pose proof (overridden_cases o action) as Hc.
  assert (∀ x, (overridden o <$> ordered w) ++ [overridden o x]
               = overridden o <$> (ordered w ++ [x])) as Happ.
  { intros x. by rewrite fmap_app. }
  rewrite !Happ. clear Happ.
  destruct action as [a|a|a|a|a].
  - rewrite Hc. apply (IH _ {| ordered := _; visited := _ |}).
  - destruct Hc as (a' & -> & ->). apply (IH _ {| ordered := _; visited := _ |}).
  - destruct Hc as (a' & -> & ->). apply (IH _ {| ordered := _; visited := _ |}).
  - rewrite Hc.
    pose proof (IH (next_if_true a)
                  {| ordered := ordered w ++ [ConditionalSplit a];
                     visited := {[i]} ∪ visited w |}) as H1.
    simpl in H1. rewrite H1.
    destruct (traverse fuel m (next_if_true a) _) as [w3|]; simpl; [|done].
    apply IH.
  - rewrite Hc.
    pose proof (IH (next_variant_a a)
                  {| ordered := ordered w ++ [ABSplit a];
                     visited := {[i]} ∪ visited w |}) as H1.
    simpl in H1. rewrite H1.
    destruct (traverse fuel m (next_variant_a a) _) as [w3|]; simpl; [|done].
    apply IH.
Qed.

Lemma unvisited_overridden o acts seen :
  unvisited (overridden o <$> acts) seen = overridden o <$> unvisited acts seen.
Proof.
  unfold unvisited. induction acts as [|a acts IH]; [done|].
  rewrite fmap_cons.
  destruct (decide (action_id a ∈ seen)) as [H|H].
  - rewrite !filter_cons_False; [done| |]; rewrite ?overridden_id; by intros [].
  - rewrite !filter_cons_True; [|done|by rewrite overridden_id].
    by rewrite fmap_cons, IH.
Qed.

Lemma getActionSequence_overridden d o :
  getActionSequence (applySettingsOverrides d o)
  = (λ out : list FlowAction, overridden o <$> out) <$> getActionSequence d.
Proof.
  unfold getActionSequence.
  rewrite applySettingsOverrides_actions, build_actionMap_overridden, length_fmap.
  change (entry_action_id (applySettingsOverrides d o)) with (entry_action_id d).
  assert (traverse (S (length (actions d))) (overridden o <$> build_actionMap (actions d))
            (Some (entry_action_id d)) {| ordered := []; visited := ∅ |}
          = (λ w', {| ordered := overridden o <$> ordered w'; visited := visited w' |})
              <$> traverse (S (length (actions d))) (build_actionMap (actions d))
                    (Some (entry_action_id d)) {| ordered := []; visited := ∅ |}) as H
    by apply (traverse_overridden o _ _ _ {| ordered := []; visited := ∅ |}).
  rewrite H. clear H.
  destruct (traverse _ _ _ _) as [w|]; simpl; [|done].
  by rewrite unvisited_overridden, fmap_app.
Qed.

(** X21: the overrides change no id, no type and no link, so the build
    order of the flow with the overrides is the build order of the flow as
    it was, each action with its overrides. *)
Theorem applySettingsOverrides_build_order d o :
  getActionSequence (applySettingsOverrides d o)
    = (λ out : list FlowAction, overridden o <$> out) <$> getActionSequence d ∧
  (λ out : list FlowAction, action_id <$> out) <$> getActionSequence (applySettingsOverrides d o)
    = (λ out : list FlowAction, action_id <$> out) <$> getActionSequence d.
Proof.
  rewrite getActionSequence_overridden. split; [done|].
  destruct (getActionSequence d) as [out|]; simpl; [|done].
  f_equal. rewrite <- list_fmap_compose. apply list_fmap_ext.
  intros _ a _. apply overridden_id.
Qed.

Lemma accepts_valid d : accepts d → valid (validateFlowDefinition d) = true.
Proof.
  unfold validateFlowDefinition, validateFlowDefinition_run. simpl.
  destruct (checks_body d {| definition := d; errors := []; warnings := [] |})
    as [_ (es & E & I)]; [done|].
  rewrite E. simpl. intros H%I. by subst.
Qed.

Lemma trigger_ok_override o t : trigger_ok (override_trigger_filter o t) ↔ trigger_ok t.
Proof.
  destruct t as [m|l|t]; simpl; try done.
  by destruct (trigger_filter_enabled o) as [[|]|].
Qed.

Lemma overridden_ids o (acts : list FlowAction) : action_id <$> (overridden o <$> acts) = action_id <$> acts.
Proof.
  rewrite <- list_fmap_compose. apply list_fmap_ext. intros _ a _. apply overridden_id.
Qed.

Lemma occurrences_overrides id d o :
  occurrences id (applySettingsOverrides d o) = occurrences id d.
Proof.
  unfold occurrences. rewrite applySettingsOverrides_actions.
  induction (actions d) as [|a acts IH]; [done|]. rewrite fmap_cons.
  destruct (decide (action_id a = id)) as [H|H].
  - rewrite !filter_cons_True; [|done|by rewrite overridden_id]. simpl. by rewrite IH.
  - rewrite !filter_cons_False; [done|done|by rewrite overridden_id].
Qed.

Lemma accepts_overrides d o :
  reentry_mode o = None →
  accepts (applySettingsOverrides d o) ↔ accepts d.
Proof.
  intros Hr.
  assert (∀ st, settings (applySettingsOverrides d o) = Some st →
                reentry st = (settings d ≫= reentry)) as Hs.
  { intros st. simpl. unfold override_reentry. rewrite Hr. intros [= <-].
    by destruct (settings d). }
  split; intros [H1 H2 H3 H4 H5 H6 H7]; split.
  - done.
  - by apply trigger_ok_override in H2.
  - rewrite applySettingsOverrides_actions in H3. by destruct (actions d).
  - rewrite applySettingsOverrides_actions, overridden_ids in H4. done.
  - intros id Hid. rewrite <- (occurrences_overrides id d o). by apply H5.
  - intros a t Ha Ht.
    rewrite applySettingsOverrides_actions, overridden_ids in H6.
    apply (H6 (overridden o a) t).
    + by apply list_elem_of_fmap_2.
    + unfold outgoing_links. by rewrite overridden_links.
  - intros st r Est Er.
    apply (H7 (override_reentry o (override_flow_settings o (settings d))) r); [done|].
    rewrite (Hs _ eq_refl), Est. done.
  - done.
  - by apply trigger_ok_override.
  - rewrite applySettingsOverrides_actions. by destruct (actions d).
  - by rewrite applySettingsOverrides_actions, overridden_ids.
  - intros id Hid. rewrite occurrences_overrides. by apply H5.
  - intros a t Ha Ht.
    rewrite applySettingsOverrides_actions, overridden_ids.
    rewrite applySettingsOverrides_actions in Ha.
    apply list_elem_of_fmap in Ha as (a0 & -> & Ha0).
    apply (H6 a0 t Ha0). unfold outgoing_links in *. by rewrite overridden_links in Ht.
  - intros st r Est Er. rewrite (Hs st Est) in Er.
    destruct (settings d) as [st0|] eqn:E0; [|done]. by apply (H7 st0 r).
Qed.

(** X22: overrides that leave the re-entry mode alone never change the
    verdict of the validator: the flow with the overrides is valid exactly
    when the flow as it was is valid. *)
Theorem applySettingsOverrides_valid d o :
  reentry_mode o = None →
  valid (validateFlowDefinition (applySettingsOverrides d o))
  = valid (validateFlowDefinition d).
Proof.
  intros Hr. pose proof (accepts_overrides d o Hr) as [H1 H2].
  destruct (valid (validateFlowDefinition d)) eqn:E.
  - by apply accepts_valid, H2, valid_accepts.
  - destruct (valid (validateFlowDefinition (applySettingsOverrides d o))) eqn:E'; [|done].
    apply valid_accepts, H1, accepts_valid in E'. congruence.
Qed.

Lemma override_for_email o a :
  ∃ a', overridden o (SendEmail a) = SendEmail a' ∧
        se_smart_sending a'
        = match override_for o (se_id a) ≫= ao_smart_sending with
          | Some b => Some b
          | None => se_smart_sending a
          end ∧
        se_utm_tracking a'
        = match override_for o (se_id a) ≫= ao_utm_tracking with
          | Some b => Some b
          | None => se_utm_tracking a
          end.
Proof.
  unfold overridden, override_for.
  destruct (action_overrides o) as [t|]; simpl; [|eauto].
  destruct (t !! se_id a) as [ov|]; simpl; [|eauto].
  eexists. split; [done|]. simpl. by destruct ov as [[|] [|]].
Qed.

Lemma override_for_sms o a :
  ∃ a', overridden o (SendSms a) = SendSms a' ∧
        sms_smart_sending a'
        = match override_for o (sms_id a) ≫= ao_smart_sending with
          | Some b => Some b
          | None => sms_smart_sending a
          end ∧
        sms_utm_tracking a'
        = match override_for o (sms_id a) ≫= ao_utm_tracking with
          | Some b => Some b
          | None => sms_utm_tracking a
          end.
Proof.
  unfold overridden, override_for.
  destruct (action_overrides o) as [t|]; simpl; [|eauto].
  destruct (t !! sms_id a) as [ov|]; simpl; [|eauto].
  eexists. split; [done|]. simpl. by destruct ov as [[|] [|]].
Qed.

Lemma overrides_flow_defaults d o :
  (settings (applySettingsOverrides d o) ≫= fs_smart_sending
   = match o_smart_sending o with
     | Some b => Some b
     | None => settings d ≫= fs_smart_sending
     end) ∧
  (settings (applySettingsOverrides d o) ≫= fs_utm_tracking
   = match o_utm_tracking o with
     | Some b => Some b
     | None => settings d ≫= fs_utm_tracking
     end).
Proof.
  simpl. unfold override_reentry, override_flow_settings.
  destruct (reentry_mode o) as [m|]; simpl;
    [destruct (truthy_string m && negb (bool_decide (m = "none")));
     [|destruct (bool_decide (m = "none"))]|];
    simpl; destruct (o_smart_sending o), (o_utm_tracking o), (settings d); done.
Qed.

(** X23: for a send-email action, what the REST compiler sends after
    the overrides is decided by the first of four values that is set: the
    override of the action, the action's own setting, the override of the
    flow, the flow's own setting; with none set, smart sending is on and
    UTM tracking is off. *)
Theorem applySettingsOverrides_email_precedence self d o tpl i a :
  actions d !! i = Some (SendEmail a) →
  ∃ a' act,
    actions (applySettingsOverrides d o) !! i = Some (SendEmail a') ∧
    transformAction self (SendEmail a') (settings (applySettingsOverrides d o)) tpl
      = inr act ∧
    message_field "smart_sending_enabled" act =
      Some (JBool (first_set [override_for o (se_id a) ≫= ao_smart_sending;
                              se_smart_sending a; o_smart_sending o;
                              settings d ≫= fs_smart_sending] true)) ∧
    message_field "add_tracking_params" act =
      Some (JBool (first_set [override_for o (se_id a) ≫= ao_utm_tracking;
                              se_utm_tracking a; o_utm_tracking o;
                              settings d ≫= fs_utm_tracking] false)).
Proof.
  intros Hi. destruct (override_for_email o a) as (a' & E & Es & Eu).
  destruct (overrides_flow_defaults d o) as [Fs Fu].
  exists a'. eexists. split; [|split; [done|]].
  { rewrite applySettingsOverrides_actions, list_lookup_fmap, Hi. simpl. by rewrite E. }
  unfold message_field, transformSendEmail, resolveSetting.
  rewrite Es, Eu, Fs, Fu. simpl.
  destruct (template_for tpl (se_id a')) as [t|]; [destruct (truthy_string t)|];
    destruct (override_for o (se_id a) ≫= ao_smart_sending),
      (override_for o (se_id a) ≫= ao_utm_tracking),
      (se_smart_sending a), (se_utm_tracking a), (o_smart_sending o),
      (o_utm_tracking o), (settings d ≫= fs_smart_sending),
      (settings d ≫= fs_utm_tracking); done.
Qed.

(** X24: the same for a send-sms action. *)
Theorem applySettingsOverrides_sms_precedence self d o tpl i a :
  actions d !! i = Some (SendSms a) →
  ∃ a' act,
    actions (applySettingsOverrides d o) !! i = Some (SendSms a') ∧
    transformAction self (SendSms a') (settings (applySettingsOverrides d o)) tpl
      = inr act ∧
    message_field "smart_sending_enabled" act =
      Some (JBool (first_set [override_for o (sms_id a) ≫= ao_smart_sending;
                              sms_smart_sending a; o_smart_sending o;
                              settings d ≫= fs_smart_sending] true)) ∧
    message_field "add_tracking_params" act =
      Some (JBool (first_set [override_for o (sms_id a) ≫= ao_utm_tracking;
                              sms_utm_tracking a; o_utm_tracking o;
                              settings d ≫= fs_utm_tracking] false)).
Proof.
  intros Hi. destruct (override_for_sms o a) as (a' & E & Es & Eu).
  destruct (overrides_flow_defaults d o) as [Fs Fu].
  exists a'. eexists. split; [|split; [done|]].
  { rewrite applySettingsOverrides_actions, list_lookup_fmap, Hi. simpl. by rewrite E. }
  unfold message_field, transformSendSms, resolveSetting.
  rewrite Es, Eu, Fs, Fu. simpl.
  destruct (override_for o (sms_id a) ≫= ao_smart_sending),
    (override_for o (sms_id a) ≫= ao_utm_tracking),
    (sms_smart_sending a), (sms_utm_tracking a), (o_smart_sending o),
    (o_utm_tracking o), (settings d ≫= fs_smart_sending),
    (settings d ≫= fs_utm_tracking); done.
Qed.

End settings_overrides.

Section settings_overrides_examples.
Import Types JS Validator BrowserFlowBuilder APIFlowCreator Compile Server
  ServerSpec Examples ServerExamples.

Lemma applySettingsOverrides_valid_witness :
  valid (validateFlowDefinition (applySettingsOverrides sending_flow ui_overrides))
  = valid (validateFlowDefinition sending_flow).
Proof. apply (applySettingsOverrides_valid sending_flow ui_overrides). reflexivity. Defined.

Lemma applySettingsOverrides_email_precedence_witness :
  ∃ a' act,
    actions (applySettingsOverrides sending_flow ui_overrides) !! 0%nat
      = Some (SendEmail a') ∧
    transformAction (new_creator "owner@example.com") (SendEmail a')
      (settings (applySettingsOverrides sending_flow ui_overrides)) None = inr act ∧
    message_field "smart_sending_enabled" act = Some (JBool false) ∧
    message_field "add_tracking_params" act = Some (JBool true).
Proof.
  apply (applySettingsOverrides_email_precedence (new_creator "owner@example.com")
           sending_flow ui_overrides None 0%nat welcome_email).
  reflexivity.
Defined.

Lemma applySettingsOverrides_sms_precedence_witness :
  ∃ a' act,
    actions (applySettingsOverrides sending_flow ui_overrides) !! 1%nat
      = Some (SendSms a') ∧
    transformAction (new_creator "owner@example.com") (SendSms a')
      (settings (applySettingsOverrides sending_flow ui_overrides)) None = inr act ∧
    message_field "smart_sending_enabled" act = Some (JBool true) ∧
    message_field "add_tracking_params" act = Some (JBool false).
Proof.
  apply (applySettingsOverrides_sms_precedence (new_creator "owner@example.com")
           sending_flow ui_overrides None 1%nat nudge_sms).
  reflexivity.
Defined.

End settings_overrides_examples.
